(** * logkeeper: retention engine and service lifecycle

  A shallow embedding of the logkeeper sources:
  - [main/logkeeper.go]: [listenServeAndHandleErrs], [getService],
    [gracefulShutdownForSIGTERM] and the tail of [main];
  - the cleanup test file of package [logkeeper]: [insertBuilds],
    [insertTests], [insertLogs] and the four test scenarios.

  The retention engine itself ([GetOldBuilds],
  [CleanupOldLogsAndTestsByBuild], [UpdateFailedBuild]) is not among
  the sources; it is modelled from the specification and marked so. *)

From stdpp Require Import base numbers list strings gmap pretty.

Local Open Scope Z_scope.

(** ** Go's [time] package, as far as the sources use it *)

Module time.

(** [time.Duration] is a count of nanoseconds. *)
Definition Duration := Z.

Definition Nanosecond : Duration := 1.
Definition Microsecond : Duration := 1000 * Nanosecond.
Definition Millisecond : Duration := 1000 * Microsecond.
Definition Second : Duration := 1000 * Millisecond.
Definition Minute : Duration := 60 * Second.
Definition Hour : Duration := 60 * Minute.

(** A [time.Time] is an instant; it is kept as nanoseconds since the
    Unix epoch. *)
Definition Time := Z.

(** A [*time.Location] is kept as its offset east of UTC, in seconds. *)
Definition Location := Z.

Inductive Month :=
| January | February | March | April | May | June
| July | August | September | October | November | December.

Definition month_number (m : Month) : Z :=
  match m with
  | January => 1 | February => 2 | March => 3 | April => 4
  | May => 5 | June => 6 | July => 7 | August => 8
  | September => 9 | October => 10 | November => 11 | December => 12
  end.

(** Days from 1970-01-01 to the given civil date (proleptic Gregorian). *)
Definition days_from_civil (year : Z) (m : Month) (day : Z) : Z :=
  let mn := month_number m in
  let y := if decide (mn ≤ 2) then year - 1 else year in
  let era := y `div` 400 in
  let yoe := y - era * 400 in
  let mp := if decide (mn ≤ 2) then mn + 9 else mn - 3 in
  let doy := (153 * mp + 2) `div` 5 + day - 1 in
  let doe := yoe * 365 + yoe `div` 4 - yoe `div` 100 + doy in
  era * 146097 + doe - 719468.

(** [time.Date(year, month, day, hour, min, sec, nsec, loc)], for
    arguments in their usual ranges (the sources pass no others). *)
Definition Date (year : Z) (m : Month) (day hour min sec nsec : Z)
    (loc : Location) : Time :=
  (((days_from_civil year m day * 24 + hour) * 60 + min) * 60 + sec - loc)
    * Second + nsec.

(** [t.Add(d)]. *)
Definition Add (t : Time) (d : Duration) : Time := t + d.

(** The zero [Time]: January 1, year 1, 00:00:00 UTC. *)
Definition zero : Time := Date 1 January 1 0 0 0 0 0.

(** [t.Before(u)]. *)
Definition Before (t u : Time) : Prop := t < u.

End time.

(** ** Package [logkeeper]: records and the retention engine *)

Module logkeeper.

(** A value of Go's [interface{}] as the [Info] mapping holds it. *)
Inductive any :=
| AnyString (s : string)
| AnyInt (n : Z)
| AnyBool (b : bool).

(** [primitive.ObjectID]: an opaque unique token, kept as its hex form. *)
Record ObjectID := mkObjectID { Hex : string }.

(** [LogKeeperBuild]; a field left out of a composite literal has Go's
    zero value, so an unset [Failed] reads [false]. *)
Record LogKeeperBuild := mkBuild {
  Id : string;
  Started : time.Time;
  Failed : bool;
  Info : gmap string any;
}.

Record Test := mkTest {
  TestId : ObjectID;
  BuildId : string;
  TestStarted : time.Time;
}.

Record Log := mkLog {
  LogBuildId : string;
}.

Inductive Collection := buildsCollection | testsCollection | logsCollection.

#[global] Instance Collection_eq_dec : EqDecision Collection.
Proof. solve_decision. Defined.

(** The three collections of the document database. Insertion order is
    kept: it is the order in which a query meets the documents. *)
Record DB := mkDB {
  builds : list LogKeeperBuild;
  tests : list Test;
  logs : list Log;
}.

Definition set_builds (l : list LogKeeperBuild) (d : DB) : DB :=
  {| builds := l; tests := tests d; logs := logs d |}.
Definition set_tests (l : list Test) (d : DB) : DB :=
  {| builds := builds d; tests := l; logs := logs d |}.
Definition set_logs (l : list Log) (d : DB) : DB :=
  {| builds := builds d; tests := tests d; logs := l |}.

(** Modelled from the spec: the [StoreError] of section 7 is not among
    the sources. A store call either goes through or fails with a
    [StoreError], which names the collection the call was made on. Go's
    [error] is [option]: [None] is [nil]. *)
Inductive StoreError := StoreErr (c : Collection).
Definition error := option StoreError.

(** Modelled from the spec: which collections currently refuse calls
    (connectivity, query execution; section 7). The store is an external
    collaborator, so its failures are inputs. *)
Definition Outage := Collection → bool.
Definition healthy : Outage := λ _, false.

(** *** The record store adapter

    The adapter's calls of section 6 of the spec, each on the document
    list of one collection and with a filter [P]. *)
Section Adapter.
Context {A : Type} (P : A → Prop) `{!∀ x, Decision (P x)}.

(** Modelled from the spec: [find(collection, filter, limit)] is not
    among the sources. The first [limit] documents that pass the filter,
    in the order of the collection; the spec asks for a positive limit
    and says nothing of others, for which nothing is returned here. *)
Definition find (limit : Z) (docs : list A) : list A :=
  take (Z.to_nat limit) (filter P docs).

(** Modelled from the spec: [count(collection, filter)] is not among the
    sources. *)
Definition count (docs : list A) : nat := length (filter P docs).

(** Modelled from the spec: [deleteMany(collection, filter)] is not among
    the sources. What is left, and how many documents were deleted. *)
Definition deleteMany (docs : list A) : list A * nat :=
  (filter (λ x, ¬ P x) docs, count docs).

(** Modelled from the spec: [deleteOne(collection, filter)] is not among
    the sources. The first document that passes the filter is deleted. *)
Fixpoint deleteOne (docs : list A) : list A * nat :=
  match docs with
  | [] => ([], 0%nat)
  | x :: rest =>
      if decide (P x) then (rest, 1%nat)
      else let '(rest', n) := deleteOne rest in (x :: rest', n)
  end.

(** Modelled from the spec: [updateOne(collection, filter, update)] is
    not among the sources. The first document that passes the filter is
    updated. *)
Fixpoint updateOne (update : A → A) (docs : list A) : list A :=
  match docs with
  | [] => []
  | x :: rest =>
      if decide (P x) then update x :: rest
      else x :: updateOne update rest
  end.
End Adapter.

(** [InsertMany] of the driver, as the tests call it ([InsertOne] is
    the case of one document): the documents are appended, unless the
    collection refuses the call. *)
Definition InsertMany {A} (out : Outage) (c : Collection)
    (docs : list A) (old : list A) : list A * error :=
  if out c then (old, Some (StoreErr c)) else (old ++ docs, None).

(** [DeleteMany(ctx, bson.M{})] of [clearCollections]; the helper stops
    the test when the call fails, so the call is taken to go through. *)
Definition clearCollection (c : Collection) (d : DB) : DB :=
  match c with
  | buildsCollection => set_builds [] d
  | testsCollection => set_tests [] d
  | logsCollection => set_logs [] d
  end.

Definition clearCollections (cs : list Collection) (d : DB) : DB :=
  foldl (λ d c, clearCollection c d) d cs.

Record CleanupStats := mkStats {
  NumBuilds : nat;
  NumTests : nat;
  NumLogs : nat;
}.

Section Engine.
(** [deletePassedTestCutoff], the retention cutoff, is a constant of
    the package that the sources use but do not define. *)
Variable deletePassedTestCutoff : time.Duration.

(** The state of the store's connections during a call. *)
Variable out : Outage.

(** Modelled from the spec: the eligibility predicate of section 3, a
    build is eligible for automatic deletion iff its failed flag is
    false and its start timestamp is strictly older than
    [now - retentionCutoff]. *)
Definition eligible (now : time.Time) (b : LogKeeperBuild) : Prop :=
  Failed b = false ∧
  time.Before (Started b) (time.Add now (- deletePassedTestCutoff)).

#[global] Instance eligible_dec now b : Decision (eligible now b) :=
  ltac:(unfold eligible, time.Before; apply _).

(** Modelled from the spec: [GetOldBuilds(limit)] of section 4.1 is
    not among the sources. It is one [find] on the builds collection
    with the eligibility filter and the limit; it fails with a
    [StoreError] when the query cannot execute. *)
Definition GetOldBuilds (now : time.Time) (limit : Z) (d : DB)
    : list LogKeeperBuild * error :=
  if out buildsCollection then ([], Some (StoreErr buildsCollection))
  else (find (eligible now) limit (builds d), None).

(** Modelled from the spec: [CleanupOldLogsAndTestsByBuild(buildId)]
    of section 4.2 is not among the sources. It deletes the tests,
    the logs and the build of that identifier; a failing delete call
    ends it, and the counts gathered so far come back with the
    error. *)
Definition CleanupOldLogsAndTestsByBuild (id : string) (d : DB)
    : DB * (CleanupStats * error) :=
  if out testsCollection
  then (d, (mkStats 0 0 0, Some (StoreErr testsCollection)))
  else
    let '(ts, nt) := deleteMany (λ t, BuildId t = id) (tests d) in
    let d1 := set_tests ts d in
    if out logsCollection
    then (d1, (mkStats 0 nt 0, Some (StoreErr logsCollection)))
    else
      let '(ls, nl) := deleteMany (λ l, LogBuildId l = id) (logs d1) in
      let d2 := set_logs ls d1 in
      if out buildsCollection
      then (d2, (mkStats 0 nt nl, Some (StoreErr buildsCollection)))
      else
        let '(bs, nb) := deleteOne (λ b, Id b = id) (builds d2) in
        (set_builds bs d2, (mkStats nb nt nl, None)).

(** Modelled from the spec: the update of [UpdateFailedBuild], which
    sets failed=true and nothing else. *)
Definition markFailed (b : LogKeeperBuild) : LogKeeperBuild :=
  {| Id := Id b; Started := Started b; Failed := true; Info := Info b |}.

(** Modelled from the spec: [UpdateFailedBuild(buildId)] of section
    4.3 is not among the sources. One [updateOne] sets failed=true on
    the build of that identifier; no build of that identifier is a
    success that changes nothing. *)
Definition UpdateFailedBuild (id : string) (d : DB) : DB * error :=
  if out buildsCollection then (d, Some (StoreErr buildsCollection))
  else (set_builds (updateOne (λ b, Id b = id) markFailed (builds d)) d,
        None).

End Engine.

(** The engine's three public operations as requests, each with the
    state of the store's connections while it runs, for runs of several
    calls in a row. *)
Inductive Op :=
| OpGetOldBuilds (now : time.Time) (limit : Z)
| OpCleanup (id : string)
| OpUpdateFailedBuild (id : string).

Definition exec (d : DB) (call : Outage * Op) : DB :=
  match call with
  | (_, OpGetOldBuilds _ _) => d
  | (out, OpCleanup id) => fst (CleanupOldLogsAndTestsByBuild out id d)
  | (out, OpUpdateFailedBuild id) => fst (UpdateFailedBuild out id d)
  end.

Definition run (calls : list (Outage * Op)) (d : DB) : DB :=
  foldl exec d calls.

(** Build identifiers are unique (section 3 of the spec). *)
Definition unique_ids (d : DB) : Prop := NoDup (Id <$> builds d).

(** No build, test or log of the identifier is stored. *)
Definition no_records (id : string) (d : DB) : Prop :=
  (∀ b, b ∈ builds d → Id b ≠ id)
  ∧ (∀ t, t ∈ tests d → BuildId t ≠ id)
  ∧ (∀ l, l ∈ logs d → LogBuildId l ≠ id).

(** Every build of the identifier carries the failed flag. *)
Definition flagged (id : string) (d : DB) : Prop :=
  ∀ b, b ∈ builds d → Id b = id → Failed b = true.

(** *** The fixtures and scenarios of the cleanup tests *)

Section Tests.
Variable deletePassedTestCutoff : time.Duration.
(** [CleanupBatchSize] is a constant of the package that the sources use
    but do not define. *)
Variable CleanupBatchSize : Z.
Variable out : Outage.
(** [time.Local], the zone of the machine the tests run on. *)
Variable Local : time.Location.
(** The identifiers that successive calls of [primitive.NewObjectID]
    return. *)
Variable fresh : nat → ObjectID.

Definition oldBuild1 (info : gmap string any) : LogKeeperBuild :=
  {| Id := "one";
     Started := time.Date 2016 time.January 15 0 0 0 0 Local;
     Failed := false;
     Info := info |}.

Definition oldBuild2 (info : gmap string any) : LogKeeperBuild :=
  {| Id := "two";
     Started := time.Date 2016 time.February 15 0 0 0 0 Local;
     Failed := false;
     Info := info |}.

Definition edgeBuild (now : time.Time) (info : gmap string any)
    : LogKeeperBuild :=
  {| Id := "three";
     Started := time.Add now (- deletePassedTestCutoff + time.Minute);
     Failed := false;
     Info := info |}.

Definition newBuild (now : time.Time) (info : gmap string any)
    : LogKeeperBuild :=
  {| Id := "four"; Started := now; Failed := false; Info := info |}.

Definition taskInfo : gmap string any :=
  <["task_id" := AnyString (Hex (fresh 0))]> ∅.

(** [insertBuilds]: the new store, the four identifiers, and whether the
    [assert.NoError] held. [now] is what [time.Now()] read. *)
Definition insertBuilds (now : time.Time) (d : DB) : DB * list string * bool :=
  let info := taskInfo in
  let '(bs, err) :=
    InsertMany out buildsCollection
      [oldBuild1 info; oldBuild2 info; edgeBuild now info; newBuild now info]
      (builds d) in
  (set_builds bs d,
   [Id (oldBuild1 info); Id (oldBuild2 info); Id (edgeBuild now info);
    Id (newBuild now info)],
   bool_decide (err = None)).

(** [insertTests]; indexing [ids] out of range panics, which is [None]. *)
Definition insertTests (ids : list string) (d : DB) : option (DB * bool) :=
  id0 ← ids !! 0%nat;
  id1 ← ids !! 1%nat;
  id2 ← ids !! 2%nat;
  id3 ← ids !! 3%nat;
  let test1 := {| TestId := fresh 1; BuildId := id0; TestStarted := time.zero |} in
  let test2 := {| TestId := fresh 2; BuildId := id1; TestStarted := time.zero |} in
  let test3 := {| TestId := fresh 3; BuildId := id2; TestStarted := time.zero |} in
  let test4 := {| TestId := fresh 4; BuildId := id3; TestStarted := time.zero |} in
  let '(ts, err) :=
    InsertMany out testsCollection [test1; test2; test3; test4] (tests d) in
  Some (set_tests ts d, bool_decide (err = None)).

(** [insertLogs]: two logs of the first build, one of the second, and one
    of a build that does not exist. *)
Definition insertLogs (ids : list string) (d : DB) : option (DB * bool) :=
  id0 ← ids !! 0%nat;
  id1 ← ids !! 1%nat;
  let log1 := {| LogBuildId := id0 |} in
  let log2 := {| LogBuildId := id0 |} in
  let log3 := {| LogBuildId := id1 |} in
  let newId := Hex (fresh 5) in
  let log4 := {| LogBuildId := newId |} in
  let '(ls, err) :=
    InsertMany out logsCollection [log1; log2; log3; log4] (logs d) in
  Some (set_logs ls d, bool_decide (err = None)).

(** The common opening of the tests: clear the named collections, then
    [insertBuilds], [insertTests], [insertLogs]. *)
Definition fixture (cleared : list Collection) (now : time.Time) (d : DB)
    : option (DB * list string * bool) :=
  let d0 := clearCollections cleared d in
  let '(d1, ids, ok1) := insertBuilds now d0 in
  '(d2, ok2) ← insertTests ids d1;
  '(d3, ok3) ← insertLogs ids d2;
  Some (d3, ids, ok1 && ok2 && ok3).

(** [TestGetOldTests]: [now0] is the clock when the builds are made,
    [now1] when [GetOldBuilds] runs. The outcome is whether every
    assertion held; [None] is a panic. *)
Definition TestGetOldTests (now0 now1 : time.Time) (d : DB) : option bool :=
  '(d1, ids, ok) ← fixture [buildsCollection] now0 d;
  let '(found, err) :=
    GetOldBuilds deletePassedTestCutoff out now1 CleanupBatchSize d1 in
  Some (ok && bool_decide (err = None) && bool_decide (length found = 2%nat)).

(** [TestCleanupOldLogsAndTestsByBuild]. *)
Definition TestCleanupOldLogsAndTestsByBuild (now0 : time.Time) (d : DB)
    : option bool :=
  '(d1, ids, ok) ←
    fixture [buildsCollection; testsCollection; logsCollection] now0 d;
  let count1 := length (tests d1) in
  let count2 := length (logs d1) in
  id0 ← ids !! 0%nat;
  let '(d2, (deletedStats, err)) := CleanupOldLogsAndTestsByBuild out id0 d1 in
  let count3 := length (tests d2) in
  let count4 := length (logs d2) in
  Some (ok && bool_decide (count1 = 4%nat) && bool_decide (count2 = 4%nat)
        && bool_decide (err = None)
        && bool_decide (NumBuilds deletedStats = 1%nat)
        && bool_decide (NumTests deletedStats = 1%nat)
        && bool_decide (NumLogs deletedStats = 2%nat)
        && bool_decide (count3 = 3%nat) && bool_decide (count4 = 2%nat)).

(** [TestNoErrorWithNoLogsOrTests]: only the tests collection is cleared. *)
Definition TestNoErrorWithNoLogsOrTests (now0 : time.Time) (d : DB) : bool :=
  let d0 := clearCollections [testsCollection] d in
  let test :=
    {| TestId := fresh 0; BuildId := "incompletebuild"; TestStarted := now0 |} in
  let build :=
    {| Id := "incompletebuild"; Started := time.zero; Failed := false;
       Info := ∅ |} in
  let '(bs1, err1) := InsertMany out buildsCollection [build] (builds d0) in
  let d1 := set_builds bs1 d0 in
  let '(ts1, err2) := InsertMany out testsCollection [test] (tests d1) in
  let d2 := set_tests ts1 d1 in
  let '(d3, (stats1, err3)) :=
    CleanupOldLogsAndTestsByBuild out (BuildId test) d2 in
  let log := {| LogBuildId := "incompletebuild" |} in
  let '(bs2, err4) := InsertMany out buildsCollection [build] (builds d3) in
  let d4 := set_builds bs2 d3 in
  let '(ls1, err5) := InsertMany out logsCollection [log] (logs d4) in
  let d5 := set_logs ls1 d4 in
  let '(d6, (stats2, err6)) :=
    CleanupOldLogsAndTestsByBuild out (LogBuildId log) d5 in
  bool_decide (err1 = None) && bool_decide (err2 = None)
  && bool_decide (err3 = None)
  && bool_decide (NumBuilds stats1 = 1%nat)
  && bool_decide (NumTests stats1 = 1%nat)
  && bool_decide (NumLogs stats1 = 0%nat)
  && bool_decide (err4 = None) && bool_decide (err5 = None)
  && bool_decide (err6 = None)
  && bool_decide (NumBuilds stats2 = 1%nat)
  && bool_decide (NumTests stats2 = 0%nat)
  && bool_decide (NumLogs stats2 = 1%nat).

(** [TestUpdateFailedTest]: three readings of the clock. *)
Definition TestUpdateFailedTest (now0 now1 now2 : time.Time) (d : DB)
    : option bool :=
  '(d1, ids, ok) ←
    fixture [buildsCollection; testsCollection; logsCollection] now0 d;
  let '(found1, err1) :=
    GetOldBuilds deletePassedTestCutoff out now1 CleanupBatchSize d1 in
  id1 ← ids !! 1%nat;
  let '(d2, err2) := UpdateFailedBuild out id1 d1 in
  let '(found2, err3) :=
    GetOldBuilds deletePassedTestCutoff out now2 CleanupBatchSize d2 in
  Some (ok && bool_decide (err1 = None)
        && bool_decide (length found1 = 2%nat)
        && bool_decide (err2 = None) && bool_decide (err3 = None)
        && bool_decide (length found2 = 1%nat)).

End Tests.

End logkeeper.

(** ** The libraries [main] builds on: [context], [net/http], [grip] *)

Module context.

(** A [context.Context], as far as shutdown is concerned: whether it
    carries a deadline, and whether it can be cancelled. *)
Record Context := mkContext {
  Deadline : option time.Time;
  cancelable : bool;
}.

Definition Background : Context :=
  {| Deadline := None; cancelable := false |}.

(** [context.WithCancel(parent)]: the parent's deadline, if any, is kept. *)
Definition WithCancel (parent : Context) : Context :=
  {| Deadline := Deadline parent; cancelable := true |}.

End context.

Module http.

(** An [http.Handler]; what it serves plays no part here. *)
Record handler := mkHandler { handler_name : string }.

(** [http.Server], with the fields the sources set. *)
Record Server := mkServer {
  Addr : string;
  Handler : handler;
  ReadTimeout : time.Duration;
  ReadHeaderTimeout : time.Duration;
  WriteTimeout : time.Duration;
}.

End http.

(** Go [error] values. [http.ErrServerClosed] is a sentinel compared by
    identity, so it has a constructor of its own; every other error value
    is told by its message. [nil] is [None]. *)
Inductive goerr :=
| ErrServerClosed
| Err (msg : string).

Definition error := option goerr.

Definition Error (e : goerr) : string :=
  match e with
  | ErrServerClosed => "http: Server closed"
  | Err msg => msg
  end.

Module grip.

(** What reaches the logger. *)
Inductive Line :=
| InfoFields (fields : gmap string string)
| Notice (msg : string).

(** A [grip.Catcher]: the errors collected so far, oldest first. *)
Definition Catcher := list goerr.

Definition NewCatcher : Catcher := [].

(** [catcher.Add(err)]: a [nil] error is not collected. *)
Definition Add (err : error) (c : Catcher) : Catcher :=
  match err with
  | None => c
  | Some e => c ++ [e]
  end.

Definition HasErrors (c : Catcher) : bool :=
  match c with [] => false | _ => true end.

(** [catcher.Resolve()]: [nil] when nothing was collected, else one
    error made of all the messages. *)
Definition Resolve (c : Catcher) : error :=
  if HasErrors c then Some (Err (String.concat "; " (Error <$> c)))
  else None.

(** [grip.EmergencyFatal(err)]: with an error, the process is ended by
    [os.Exit(1)]; with [nil], nothing happens. The result is the exit
    status, if the process was ended. *)
Definition EmergencyFatal (err : error) : option Z :=
  match err with
  | Some _ => Some 1
  | None => None
  end.

End grip.

(** ** [main/logkeeper.go] *)

Module main.
Import context http.

(** What a function does to the outside, in order. *)
Inductive Effect :=
| CallListenAndServe (s : Server)
| Log (l : grip.Line).

Section Service.
(** [logkeeper.BuildRevision] is a variable of package [logkeeper] that
    the sources use but do not define. *)
Variable BuildRevision : string.

(** [listenServeAndHandleErrs]. [ListenAndServe] is what the call
    [s.ListenAndServe()] comes back with, once it does. *)
Definition listenServeAndHandleErrs (ListenAndServe : Server → error)
    (s : option Server) : list Effect * error :=
  match s with
  | None => ([], Some (Err "no server defined"))
  | Some srv =>
      let err := ListenAndServe srv in
      match err with
      | Some ErrServerClosed =>
          ([CallListenAndServe srv;
            Log (grip.Notice ("server '" +:+ Addr srv +:+
                              "' closed, no longer serving HTTP requests"))],
           None)
      | _ => ([CallListenAndServe srv], err)
      end
  end.

(** [getService]: the returned pointer is never [nil]. *)
Definition getService (addr : string) (n : handler)
    : list Effect * option Server :=
  ([Log (grip.InfoFields (<["message" := "starting service"]>
                     (<["revision" := BuildRevision]>
                       (<["addr" := addr]> ∅))))],
   Some {| Addr := addr;
           Handler := n;
           ReadTimeout := time.Minute;
           ReadHeaderTimeout := 30 * time.Second;
           WriteTimeout := time.Minute |}).

(** The servers [main] makes: the service on [httpPort] and the pprof
    service. *)
Definition lkService (httpPort : Z) (n : handler) : option Server :=
  snd (getService (":" +:+ pretty httpPort) n).

Definition pprofService (pprof : handler) : option Server :=
  snd (getService "127.0.0.1:2285" pprof).

End Service.

(** *** The goroutines of [main]

    [main] starts one goroutine per service, which runs
    [listenServeAndHandleErrs], hands the result to the catcher and then
    signs off from [serviceWait]; and one that runs
    [gracefulShutdownForSIGTERM]. Their interleaving is a schedule: a
    list of events, each the next move of one goroutine, with the answer
    of the outside where there is one. *)

(** A service goroutine. *)
Inductive LStatus :=
| LRunning                 (* inside listenServeAndHandleErrs *)
| LReturned (r : error)    (* it returned r; catcher.Add is next *)
| LAdded (r : error)       (* added; the deferred serviceWait.Done is next *)
| LDone (r : error).

(** A goroutine started by the shutdown loop for one server. *)
Inductive SStatus :=
| SCalling                 (* inside server.Shutdown(ctx) *)
| SReturned (r : error)
| SAdded (r : error)       (* added; the deferred wg.Done is next *)
| SDone (r : error).

Record ShutdownTask := mkShutdownTask {
  target : Server;
  shutdown_ctx : Context;
  sstatus : SStatus;
}.

(** The goroutine of [gracefulShutdownForSIGTERM]. *)
Inductive GStatus :=
| GAwaitSignal             (* blocked on <-sigChan *)
| GAwaitShutdowns          (* the loop has run; blocked in wg.Wait() *)
| GDone.                   (* the deferred gracefulWait.Done() has run *)

(** The main goroutine, from [serviceWait.Wait()] on. *)
Inductive MStatus :=
| MWaitServices            (* blocked in serviceWait.Wait() *)
| MWaitGraceful            (* blocked in gracefulWait.Wait() *)
| MResolve                 (* at grip.EmergencyFatal(catcher.Resolve()) *)
| MExited (code : Z).      (* the process has ended with this status *)

Record State := mkState {
  ctx : Context;
  servers : list (option Server);
  catcher : grip.Catcher;
  serviceWait : nat;
  gracefulWait : nat;
  wg : nat;
  listeners : list LStatus;
  shutdowns : list ShutdownTask;
  sigtask : GStatus;
  mainpc : MStatus;
}.

(** The moves: [ListenAndServe] of service [i] comes back with
    [outcome]; service goroutine [i] adds its result to the catcher, or
    signs off; the signal is delivered and the loop starts the shutdown
    goroutines; [Shutdown] of request [j] comes back with [outcome];
    shutdown goroutine [j] adds, or signs off; [wg.Wait()] lets the
    shutdown goroutine through, which signs off from [gracefulWait];
    [main] gets through [serviceWait.Wait()], through
    [gracefulWait.Wait()], and resolves the catcher. *)
Inductive Event :=
| ListenReturns (i : nat) (outcome : error)
| ListenerAdds (i : nat)
| ListenerDone (i : nat)
| Signal
| ShutdownReturns (j : nat) (outcome : error)
| ShutdownAdds (j : nat)
| ShutdownDone (j : nat)
| ShutdownsWaited
| MainServicesWaited
| MainGracefulWaited
| MainResolves.

(** The loop of [gracefulShutdownForSIGTERM]: a [nil] entry is skipped,
    every other server gets a goroutine calling [server.Shutdown(ctx)]. *)
Fixpoint spawnShutdowns (c : Context) (srvs : list (option Server))
    : list ShutdownTask :=
  match srvs with
  | [] => []
  | None :: rest => spawnShutdowns c rest
  | Some s :: rest =>
      {| target := s; shutdown_ctx := c; sstatus := SCalling |}
        :: spawnShutdowns c rest
  end.

Definition set_sstatus (st : SStatus) (t : ShutdownTask) : ShutdownTask :=
  {| target := target t; shutdown_ctx := shutdown_ctx t; sstatus := st |}.

Definition with_listener (i : nat) (st : LStatus) (s : State) : State :=
  {| ctx := ctx s; servers := servers s; catcher := catcher s;
     serviceWait := serviceWait s; gracefulWait := gracefulWait s;
     wg := wg s; listeners := <[i := st]> (listeners s);
     shutdowns := shutdowns s; sigtask := sigtask s; mainpc := mainpc s |}.

Definition with_shutdown (j : nat) (t : ShutdownTask) (s : State) : State :=
  {| ctx := ctx s; servers := servers s; catcher := catcher s;
     serviceWait := serviceWait s; gracefulWait := gracefulWait s;
     wg := wg s; listeners := listeners s;
     shutdowns := <[j := t]> (shutdowns s);
     sigtask := sigtask s; mainpc := mainpc s |}.

Definition with_catcher (c : grip.Catcher) (s : State) : State :=
  {| ctx := ctx s; servers := servers s; catcher := c;
     serviceWait := serviceWait s; gracefulWait := gracefulWait s;
     wg := wg s; listeners := listeners s; shutdowns := shutdowns s;
     sigtask := sigtask s; mainpc := mainpc s |}.

Definition with_serviceWait (n : nat) (s : State) : State :=
  {| ctx := ctx s; servers := servers s; catcher := catcher s;
     serviceWait := n; gracefulWait := gracefulWait s;
     wg := wg s; listeners := listeners s; shutdowns := shutdowns s;
     sigtask := sigtask s; mainpc := mainpc s |}.

Definition with_wg (n : nat) (s : State) : State :=
  {| ctx := ctx s; servers := servers s; catcher := catcher s;
     serviceWait := serviceWait s; gracefulWait := gracefulWait s;
     wg := n; listeners := listeners s; shutdowns := shutdowns s;
     sigtask := sigtask s; mainpc := mainpc s |}.

Definition with_mainpc (m : MStatus) (s : State) : State :=
  {| ctx := ctx s; servers := servers s; catcher := catcher s;
     serviceWait := serviceWait s; gracefulWait := gracefulWait s;
     wg := wg s; listeners := listeners s; shutdowns := shutdowns s;
     sigtask := sigtask s; mainpc := m |}.

(** The state when [main] reaches [serviceWait.Wait()]: both wait groups
    are charged, every goroutine has been started, nothing is caught. *)
Definition start (c : Context) (srvs : list (option Server)) : State :=
  {| ctx := c; servers := srvs; catcher := grip.NewCatcher;
     serviceWait := length srvs; gracefulWait := 1; wg := 0;
     listeners := replicate (length srvs) LRunning;
     shutdowns := []; sigtask := GAwaitSignal; mainpc := MWaitServices |}.

Definition exited (s : State) : bool :=
  match mainpc s with MExited _ => true | _ => false end.

(** One move of one goroutine; [None] when the move is not the
    goroutine's next one, or when it is blocked. Once the process has
    ended nothing moves. *)
Definition step (s : State) (e : Event) : option State :=
  if exited s then None else
  match e with
  | ListenReturns i outcome =>
      match listeners s !! i, servers s !! i with
      | Some LRunning, Some srv =>
          let r := snd (listenServeAndHandleErrs (λ _, outcome) srv) in
          Some (with_listener i (LReturned r) s)
      | _, _ => None
      end
  | ListenerAdds i =>
      match listeners s !! i with
      | Some (LReturned r) =>
          Some (with_listener i (LAdded r)
                  (with_catcher (grip.Add r (catcher s)) s))
      | _ => None
      end
  | ListenerDone i =>
      match listeners s !! i, serviceWait s with
      | Some (LAdded r), S n =>
          Some (with_listener i (LDone r) (with_serviceWait n s))
      | _, _ => None
      end
  | Signal =>
      match sigtask s with
      | GAwaitSignal =>
          let tasks := spawnShutdowns (ctx s) (servers s) in
          Some {| ctx := ctx s; servers := servers s; catcher := catcher s;
                  serviceWait := serviceWait s;
                  gracefulWait := gracefulWait s;
                  wg := (wg s + length tasks)%nat;
                  listeners := listeners s; shutdowns := tasks;
                  sigtask := GAwaitShutdowns; mainpc := mainpc s |}
      | _ => None
      end
  | ShutdownReturns j outcome =>
      match shutdowns s !! j with
      | Some t =>
          match sstatus t with
          | SCalling =>
              Some (with_shutdown j (set_sstatus (SReturned outcome) t) s)
          | _ => None
          end
      | None => None
      end
  | ShutdownAdds j =>
      match shutdowns s !! j with
      | Some t =>
          match sstatus t with
          | SReturned r =>
              Some (with_shutdown j (set_sstatus (SAdded r) t)
                      (with_catcher (grip.Add r (catcher s)) s))
          | _ => None
          end
      | None => None
      end
  | ShutdownDone j =>
      match shutdowns s !! j with
      | Some t =>
          match sstatus t, wg s with
          | SAdded r, S n =>
              Some (with_shutdown j (set_sstatus (SDone r) t) (with_wg n s))
          | _, _ => None
          end
      | None => None
      end
  | ShutdownsWaited =>
      match sigtask s, wg s, gracefulWait s with
      | GAwaitShutdowns, O, S n =>
          Some {| ctx := ctx s; servers := servers s; catcher := catcher s;
                  serviceWait := serviceWait s; gracefulWait := n;
                  wg := wg s; listeners := listeners s;
                  shutdowns := shutdowns s;
                  sigtask := GDone; mainpc := mainpc s |}
      | _, _, _ => None
      end
  | MainServicesWaited =>
      match mainpc s, serviceWait s with
      | MWaitServices, O => Some (with_mainpc MWaitGraceful s)
      | _, _ => None
      end
  | MainGracefulWaited =>
      match mainpc s, gracefulWait s with
      | MWaitGraceful, O => Some (with_mainpc MResolve s)
      | _, _ => None
      end
  | MainResolves =>
      match mainpc s with
      | MResolve =>
          match grip.EmergencyFatal (grip.Resolve (catcher s)) with
          | Some code => Some (with_mainpc (MExited code) s)
          | None => Some (with_mainpc (MExited 0) s)
          end
      | _ => None
      end
  end.

(** A schedule, run from a state; [None] when some move of it cannot be
    made. *)
Fixpoint run (s : State) (evs : list Event) : option State :=
  match evs with
  | [] => Some s
  | e :: rest =>
      match step s e with
      | Some s' => run s' rest
      | None => None
      end
  end.

Section Main.
Variable BuildRevision : string.

(** [main] from the making of the catcher on: [ctx] is the context made
    at the top of [main] by [context.WithCancel(context.Background())]. *)
Definition main_ctx : Context := WithCancel Background.

Definition main_servers (httpPort : Z) (n pprof : handler)
    : list (option Server) :=
  [lkService BuildRevision httpPort n; pprofService BuildRevision pprof].

Definition main_start (httpPort : Z) (n pprof : handler) : State :=
  start main_ctx (main_servers httpPort n pprof).

End Main.

(** The errors the goroutines have handed to the catcher so far. *)
Definition listener_added (st : LStatus) : error :=
  match st with
  | LAdded r | LDone r => r
  | _ => None
  end.

Definition shutdown_added (t : ShutdownTask) : error :=
  match sstatus t with
  | SAdded r | SDone r => r
  | _ => None
  end.

Definition handed_over (s : State) : list goerr :=
  omap listener_added (listeners s) ++ omap shutdown_added (shutdowns s).

(** The errors the goroutines have come back with so far. *)
Definition listener_result (st : LStatus) : error :=
  match st with
  | LReturned r | LAdded r | LDone r => r
  | LRunning => None
  end.

Definition shutdown_result (t : ShutdownTask) : error :=
  match sstatus t with
  | SReturned r | SAdded r | SDone r => r
  | SCalling => None
  end.

Definition captured (s : State) : list goerr :=
  omap listener_result (listeners s) ++ omap shutdown_result (shutdowns s).

(** Goroutines that have not signed off from their wait group yet. *)
Definition lpending (st : LStatus) : nat :=
  match st with LDone _ => 0 | _ => 1 end.

Definition spending (t : ShutdownTask) : nat :=
  match sstatus t with SDone _ => 0 | _ => 1 end.

(** What holds of every state [main] can be in. *)
Record Inv (s : State) : Prop := mkInv {
  inv_catcher : catcher s ≡ₚ handed_over s;
  inv_serviceWait : serviceWait s = sum_list (lpending <$> listeners s);
  inv_wg : wg s = sum_list (spending <$> shutdowns s);
  inv_gracefulWait :
    gracefulWait s = match sigtask s with GDone => 0%nat | _ => 1%nat end;
  inv_graceful_done : sigtask s = GDone → wg s = 0%nat;
  inv_unsignalled : sigtask s = GAwaitSignal → shutdowns s = [];
  inv_requests : ∀ t, t ∈ shutdowns s → shutdown_ctx t = ctx s;
  inv_targets :
    sigtask s ≠ GAwaitSignal → target <$> shutdowns s = omap id (servers s);
  inv_main_services : mainpc s ≠ MWaitServices → serviceWait s = 0%nat;
  inv_main_graceful :
    mainpc s ≠ MWaitServices → mainpc s ≠ MWaitGraceful →
    gracefulWait s = 0%nat;
  inv_exit :
    ∀ code, mainpc s = MExited code →
      code = if grip.HasErrors (catcher s) then 1 else 0;
}.

(** Every shutdown request carries a context with a deadline. *)
Definition shutdown_bounded (s : State) : Prop :=
  ∀ t, t ∈ shutdowns s → is_Some (Deadline (shutdown_ctx t)).

(** Once a goroutine has come back with a result, the result stays. *)
Definition listener_back (s : State) (i : nat) (r : error) : Prop :=
  ∃ st, listeners s !! i = Some st ∧ st ≠ LRunning ∧ listener_result st = r.

Definition shutdown_back (s : State) (j : nat) (r : error) : Prop :=
  ∃ t, shutdowns s !! j = Some t ∧ sstatus t ≠ SCalling
       ∧ shutdown_result t = r.

(** The shutdown protocol as the specification words it: once the signal
    has been delivered, every server of the list that is not [nil] has a
    shutdown request, every request is bounded by a grace period, and the
    shutdown goroutine has signed off only if every request is
    finished. *)
Definition bounded_shutdown_protocol (s0 : State) : Prop :=
  ∀ evs s, run s0 evs = Some s → sigtask s ≠ GAwaitSignal →
    target <$> shutdowns s = omap id (servers s)
    ∧ shutdown_bounded s
    ∧ (sigtask s = GDone → ∀ t, t ∈ shutdowns s → ∃ r, sstatus t = SDone r).

End main.

(** ** Go's [strings] package, as far as [main] uses it *)

Module strings.

(** How often the byte [sep] occurs in [s]. *)
Fixpoint Count (s : string) (sep : Ascii.ascii) : nat :=
  match s with
  | EmptyString => 0
  | String c rest =>
      if decide (c = sep) then S (Count rest sep) else Count rest sep
  end.

(** [strings.Split(s, sep)] for a separator of one byte, which is what
    [main] passes: the pieces of [s] between the occurrences of [sep]. *)
Fixpoint Split (s : string) (sep : Ascii.ascii) : list string :=
  match s with
  | EmptyString => [EmptyString]
  | String c rest =>
      if decide (c = sep) then EmptyString :: Split rest sep
      else
        match Split rest sep with
        | [] => [String c EmptyString]
        | piece :: pieces => String c piece :: pieces
        end
  end.

(** The byte of the one-byte string [","]. *)
Definition comma : Ascii.ascii := Ascii.ascii_of_nat 44.

(** [strings.Join(pieces, sep)] for a separator of one byte. *)
Definition Join (pieces : list string) (sep : Ascii.ascii) : string :=
  String.concat (String sep EmptyString) pieces.

End strings.

(** ** [main] from its first line: start-up, services, return *)

Module program.
Import context http main.

(** The command line after [flag.Parse()]. *)
Record Flags := mkFlags {
  httpPort : Z;
  dbHost : string;
  rsName : string;
  logPath : string;
  maxRequestSize : Z;
}.

(** The defaults the flags are declared with. *)
Definition default_flags : Flags :=
  {| httpPort := 8080;
     dbHost := "localhost:27017";
     rsName := "";
     logPath := "logkeeperapp.log";
     maxRequestSize := 1024 * 1024 * 32 |}.

(** [mgo.DialInfo], with the fields [main] sets. *)
Record DialInfo := mkDialInfo {
  Addrs : list string;
  ReplicaSetName : string;
}.

(** [logkeeper.Options]. *)
Record Options := mkOptions {
  URL : string;
  MaxRequestSize : Z;
}.

Definition dbName : string := "buildlogs".

(** The [dialInfo] of [main]: the hosts between the commas of
    [-dbhost], and the replica set name when one is given. *)
Definition dialInfo (f : Flags) : DialInfo :=
  let info := {| Addrs := strings.Split (dbHost f) strings.comma; ReplicaSetName := "" |} in
  if decide (rsName f ≠ "")
  then {| Addrs := Addrs info; ReplicaSetName := rsName f |}
  else info.

(** The calls [main] makes into other packages before its services
    start, and the ones it defers. *)
Inductive Call :=
| GetSender (path : string)
| SetSender
| DialWithInfo (info : DialInfo)
| SetSession
| NewLocalLimitedSize (workers capacity : Z)
| NewMovingAverageRateLimitedWorkers
    (workers target : Z) (interval : time.Duration)
| SetRunner
| QueueStart
| SetCleanupQueue
| StartCrons
| New (opts : Options)
| SetDBName (name : string)
| GoBackgroundLogging
| SenderClose
| Cancel
| LogStackTraceAndExit.

#[global] Instance DialInfo_eq_dec : EqDecision DialInfo.
Proof. solve_decision. Defined.
#[global] Instance Options_eq_dec : EqDecision Options.
Proof. solve_decision. Defined.
#[global] Instance Call_eq_dec : EqDecision Call.
Proof. solve_decision. Defined.

(** The calls whose error [main] hands to [grip.EmergencyFatal]. *)
Definition fallible (c : Call) : bool :=
  match c with
  | GetSender _ | SetSender | DialWithInfo _ | SetSession
  | NewMovingAverageRateLimitedWorkers _ _ _
  | SetRunner | QueueStart | SetCleanupQueue | StartCrons => true
  | _ => false
  end.

(** [errors.Wrap(err, msg)]: [nil] stays [nil]. *)
Definition Wrap (err : error) (msg : string) : error :=
  match err with
  | None => None
  | Some e => Some (Err (msg +:+ ": " +:+ Error e))
  end.

(** The process so far: the calls made, oldest first, and the calls
    deferred, latest first. *)
Record Proc := mkProc {
  calls : list Call;
  deferred : list Call;
}.

(** A statement of [main] either lets the next one run or ends the
    process with an exit status. *)
Inductive Outcome (A : Type) :=
| Continue (a : A)
| Exited (code : Z).
Arguments Continue {A} a.
Arguments Exited {A} code.

Definition M (A : Type) : Type := Proc → Proc * Outcome A.

Definition ret {A} (a : A) : M A := λ p, (p, Continue a).

Definition bind {A B} (m : M A) (k : A → M B) : M B :=
  λ p, match m p with
       | (p', Continue a) => k a p'
       | (p', Exited code) => (p', Exited code)
       end.

Notation "x ←' m ; k" := (bind m (λ x, k))
  (at level 100, m at next level, right associativity).
Notation "m ;;' k" := (bind m (λ _, k))
  (at level 100, right associativity).

Section Startup.
Variable BuildRevision : string.
(** Constants of package [logkeeper] that the sources use but do not
    define. *)
Variables AmboyWorkers QueueSizeCap AmboyTargetNumJobs : Z.
Variable AmboyInterval : time.Duration.
(** The error each call comes back with; [None] is [nil]. *)
Variable answer : Call → error.

Definition call (c : Call) : M error :=
  λ p, ({| calls := calls p ++ [c]; deferred := deferred p |},
        Continue (answer c)).

Definition defer (c : Call) : M unit :=
  λ p, ({| calls := calls p; deferred := c :: deferred p |}, Continue ()).

(** [grip.EmergencyFatal(err)] as a statement: [os.Exit] ends the
    process at once, the deferred calls do not run. *)
Definition EmergencyFatal (err : error) : M unit :=
  λ p, match grip.EmergencyFatal err with
       | Some code => (p, Exited code)
       | None => (p, Continue ())
       end.

(** [main] up to [go logkeeper.BackgroundLogging(ctx)]. *)
Definition startup (f : Flags) : M unit :=
  defer LogStackTraceAndExit ;;'
  defer Cancel ;;'
  err ←' call (GetSender (logPath f)) ;
  EmergencyFatal err ;;'
  defer SenderClose ;;'
  err ←' call SetSender ;
  EmergencyFatal err ;;'
  err ←' call (DialWithInfo (dialInfo f)) ;
  EmergencyFatal err ;;'
  err ←' call SetSession ;
  EmergencyFatal err ;;'
  call (NewLocalLimitedSize AmboyWorkers QueueSizeCap) ;;'
  err ←' call (NewMovingAverageRateLimitedWorkers
                 AmboyWorkers AmboyTargetNumJobs AmboyInterval) ;
  EmergencyFatal (Wrap err "problem constructing worker pool") ;;'
  err ←' call SetRunner ;
  EmergencyFatal err ;;'
  err ←' call QueueStart ;
  EmergencyFatal err ;;'
  err ←' call SetCleanupQueue ;
  EmergencyFatal err ;;'
  err ←' call StartCrons ;
  EmergencyFatal err ;;'
  call (New {| URL := "http://localhost:" +:+ pretty (httpPort f);
               MaxRequestSize := maxRequestSize f |}) ;;'
  call (SetDBName dbName) ;;'
  call GoBackgroundLogging ;;'
  ret ().

(** The calls of a start-up in which nothing fails. *)
Definition startup_calls (f : Flags) : list Call :=
  [GetSender (logPath f); SetSender; DialWithInfo (dialInfo f); SetSession;
   NewLocalLimitedSize AmboyWorkers QueueSizeCap;
   NewMovingAverageRateLimitedWorkers
     AmboyWorkers AmboyTargetNumJobs AmboyInterval;
   SetRunner; QueueStart; SetCleanupQueue; StartCrons;
   New {| URL := "http://localhost:" +:+ pretty (httpPort f);
          MaxRequestSize := maxRequestSize f |};
   SetDBName dbName; GoBackgroundLogging].

Definition fresh_process : Proc := {| calls := []; deferred := [] |}.

(** All of [main]: the start-up, then the goroutines under the schedule
    [evs]. The result is the calls made and the exit status, if the
    process has ended. Status 0 is [main] returning, which runs the
    deferred calls, latest first; [os.Exit(1)] runs none. *)
Definition main (f : Flags) (n pprof : handler) (evs : list Event)
    : list Call * option Z :=
  match startup f fresh_process with
  | (p, Exited code) => (calls p, Some code)
  | (p, Continue _) =>
      match run (main_start BuildRevision (httpPort f) n pprof) evs with
      | Some s =>
          match mainpc s with
          | MExited 0 => (calls p ++ deferred p, Some 0)
          | MExited code => (calls p, Some code)
          | _ => (calls p, None)
          end
      | None => (calls p, None)
      end
  end.

End Startup.

End program.

(** ** How far a run of [main] is from its end *)

Module progress.
Import context http main.

(** The moves a goroutine still has to make. *)
Definition lmoves (st : LStatus) : nat :=
  match st with
  | LRunning => 3 | LReturned _ => 2 | LAdded _ => 1 | LDone _ => 0
  end.

Definition smoves (t : ShutdownTask) : nat :=
  match sstatus t with
  | SCalling => 3 | SReturned _ => 2 | SAdded _ => 1 | SDone _ => 0
  end.

(** The shutdown goroutine: taking the signal, then one wait; with the
    signal it starts a goroutine of three moves for each server that is
    not [nil]. *)
Definition gmoves (s : State) : nat :=
  match sigtask s with
  | GAwaitSignal => 2 + 3 * length (omap id (servers s))
  | GAwaitShutdowns => 1
  | GDone => 0
  end.

Definition mmoves (m : MStatus) : nat :=
  match m with
  | MWaitServices => 3 | MWaitGraceful => 2 | MResolve => 1 | MExited _ => 0
  end.

Definition moves_left (s : State) : nat :=
  sum_list (lmoves <$> listeners s) + sum_list (smoves <$> shutdowns s)
  + gmoves s + mmoves (mainpc s).

(** A state [main] can reach: the invariant of the wait groups, and one
    service goroutine per server. *)
Definition reachable (s : State) : Prop :=
  Inv s ∧ length (listeners s) = length (servers s).

(** A [ListenAndServe] or [Shutdown] that came back without harm. *)
Definition closed_normally (outcome : error) : Prop :=
  outcome = Some ErrServerClosed ∨ outcome = None.

End progress.

(** ** Concrete stores, handlers and schedules *)

Module sample.
Import logkeeper main.

Definition thirty_days : time.Duration := 30 * 24 * time.Hour.
Definition noon_31_Oct_2026 : time.Time :=
  time.Date 2026 time.October 31 12 0 0 0 0.
Definition nth_oid (n : nat) : ObjectID := mkObjectID (pretty n).

Definition build_a : LogKeeperBuild :=
  mkBuild "a" (time.Date 2020 time.May 1 0 0 0 0 0) false ∅.
Definition build_b : LogKeeperBuild :=
  mkBuild "b" (time.Date 2020 time.June 1 0 0 0 0 0) true ∅.
Definition build_c : LogKeeperBuild :=
  mkBuild "c" (time.Date 2026 time.October 30 0 0 0 0 0) false ∅.

Definition sample_store : DB :=
  mkDB [build_a; build_b; build_c]
       [mkTest (nth_oid 7) "a" time.zero; mkTest (nth_oid 8) "c" time.zero]
       [mkLog "a"; mkLog "b"; mkLog "a"].

Definition empty_store : DB := mkDB [] [] [].

Definition negroni : http.handler := http.mkHandler "negroni".
Definition pprof : http.handler := http.mkHandler "pprof".

(** The state of [main] built at revision "dev" and listening on 8080. *)
Definition main_8080 : State := main_start "dev" 8080 negroni pprof.

(** The signal comes, both shutdowns succeed, the service closes; pprof
    could not bind its port. *)
Definition failing_schedule : list Event :=
  [ListenReturns 1 (Some (Err "listen tcp 127.0.0.1:2285: bind: address already in use"));
   Signal;
   ShutdownReturns 0 None;
   ListenReturns 0 (Some ErrServerClosed);
   ShutdownReturns 1 (Some (Err "context canceled"));
   ShutdownAdds 0; ShutdownAdds 1; ListenerAdds 1; ListenerAdds 0;
   ListenerDone 0; ListenerDone 1; MainServicesWaited;
   ShutdownDone 1; ShutdownDone 0; ShutdownsWaited;
   MainGracefulWaited; MainResolves].

(** The signal comes and everything closes in order. *)
Definition clean_schedule : list Event :=
  [Signal;
   ListenReturns 0 (Some ErrServerClosed);
   ListenReturns 1 (Some ErrServerClosed);
   ShutdownReturns 1 None; ShutdownReturns 0 None;
   ListenerAdds 0; ListenerDone 0; ListenerAdds 1; ListenerDone 1;
   ShutdownAdds 0; ShutdownDone 0; ShutdownAdds 1; ShutdownDone 1;
   MainServicesWaited; ShutdownsWaited; MainGracefulWaited; MainResolves].

(** Every call of the start-up succeeds. *)
Definition all_succeed : program.Call → option goerr := λ _, None.

(** The database cannot be reached; everything else would succeed. *)
Definition dial_fails : program.Call → option goerr :=
  λ c, match c with
       | program.DialWithInfo _ => Some (Err "no reachable servers")
       | _ => None
       end.

(** The flags of [logkeeper -dbhost db1:27017,db2:27017 -rsName rs0]. *)
Definition replica_flags : program.Flags :=
  {| program.httpPort := 8080;
     program.dbHost := "db1:27017,db2:27017";
     program.rsName := "rs0";
     program.logPath := "logkeeperapp.log";
     program.maxRequestSize := 1024 * 1024 * 32 |}.

(** The first service has closed and handed its result over, and has
    not signed off yet. *)
Definition first_service_added : list Event :=
  [ListenReturns 0 (Some ErrServerClosed); ListenerAdds 0].

(** [clean_schedule] up to the resolving of the catcher. *)
Definition clean_until_resolve : list Event := take 16 clean_schedule.

End sample.

(** * Properties of the retention engine *)

Section AdapterFacts.
Context {A : Type} (P : A → Prop) `{!∀ x, Decision (P x)}.
Implicit Types docs : list A.

Lemma find_length limit docs :
  (length (logkeeper.find P limit docs) ≤ Z.to_nat limit)%nat.
Proof. unfold logkeeper.find. rewrite length_take. lia. Qed.

Lemma find_sound limit docs x :
  x ∈ logkeeper.find P limit docs → P x ∧ x ∈ docs.
Proof.
  unfold logkeeper.find. intros Hx.
  apply (subseteq_take _ _ x) in Hx.
  by apply list_elem_of_filter in Hx.
Qed.

Lemma find_all limit docs :
  Z.of_nat (logkeeper.count P docs) ≤ limit →
  logkeeper.find P limit docs = filter P docs.
Proof.
  unfold logkeeper.find, logkeeper.count. intros Hle.
  apply take_ge. lia.
Qed.

Lemma find_none limit docs :
  (∀ x, x ∈ docs → ¬ P x) → logkeeper.find P limit docs = [].
Proof.
  intros Hno. unfold logkeeper.find.
  assert (filter P docs = []) as ->; [|by rewrite take_nil].
  induction docs as [|x l IH]; [done|].
  rewrite filter_cons_False.
  - apply IH. intros y Hy. apply Hno. by right.
  - apply Hno. by left.
Qed.

Lemma count_zero_iff docs :
  logkeeper.count P docs = 0%nat ↔ ∀ x, x ∈ docs → ¬ P x.
Proof.
  unfold logkeeper.count. split.
  - intros H0 x Hx HP.
    assert (x ∈ filter P docs) as Hin by (by apply list_elem_of_filter).
    destruct (filter P docs); [by apply elem_of_nil in Hin | done].
  - intros Hno. induction docs as [|x l IH]; [done|].
    rewrite filter_cons_False.
    + apply IH. intros y Hy. apply Hno. by right.
    + apply Hno. by left.
Qed.

Lemma deleteMany_rest docs :
  fst (logkeeper.deleteMany P docs) = filter (λ x, ¬ P x) docs.
Proof. done. Qed.

Lemma deleteMany_clears docs :
  logkeeper.count P (fst (logkeeper.deleteMany P docs)) = 0%nat.
Proof.
  apply count_zero_iff. intros x Hx. simpl in Hx.
  by apply list_elem_of_filter in Hx as [? _].
Qed.

Lemma deleteMany_nothing docs :
  (∀ x, x ∈ docs → ¬ P x) → logkeeper.deleteMany P docs = (docs, 0%nat).
Proof.
  intros Hno. unfold logkeeper.deleteMany. f_equal.
  - induction docs as [|x l IH]; [done|].
    rewrite filter_cons_True by (apply Hno; by left).
    f_equal. apply IH. intros y Hy. apply Hno. by right.
  - by apply count_zero_iff.
Qed.

Lemma deleteOne_nothing docs :
  (∀ x, x ∈ docs → ¬ P x) → logkeeper.deleteOne P docs = (docs, 0%nat).
Proof.
  induction docs as [|x l IH]; intros Hno; [done|]. simpl.
  rewrite decide_False by (apply Hno; by left).
  rewrite IH; [done|]. intros y Hy. apply Hno. by right.
Qed.

Lemma deleteOne_found docs :
  (∃ x, x ∈ docs ∧ P x) → snd (logkeeper.deleteOne P docs) = 1%nat.
Proof.
  induction docs as [|x l IH]; intros (y & Hy & HP).
  - by apply elem_of_nil in Hy.
  - simpl. destruct (decide (P x)); [done|].
    apply elem_of_cons in Hy as [->|Hy]; [done|].
    destruct (logkeeper.deleteOne P l) eqn:E. simpl in *.
    apply IH. eauto.
Qed.

Lemma deleteOne_at_most_one docs :
  (snd (logkeeper.deleteOne P docs) ≤ 1)%nat.
Proof.
  induction docs as [|x l IH]; simpl; [lia|].
  destruct (decide (P x)); simpl; [lia|].
  by destruct (logkeeper.deleteOne P l).
Qed.

Lemma deleteOne_sublist docs x :
  x ∈ fst (logkeeper.deleteOne P docs) → x ∈ docs.
Proof.
  induction docs as [|y l IH]; simpl; [done|].
  destruct (decide (P y)); simpl.
  - intros. by right.
  - destruct (logkeeper.deleteOne P l) eqn:E. simpl in *.
    intros [->|Hx]%elem_of_cons; [by left|right; by apply IH].
Qed.

Lemma deleteOne_keeps_others docs :
  filter (λ x, ¬ P x) (fst (logkeeper.deleteOne P docs))
  = filter (λ x, ¬ P x) docs.
Proof.
  induction docs as [|y l IH]; simpl; [done|].
  destruct (decide (P y)); simpl.
  - rewrite filter_cons_False; [done|]. by intros Hn.
  - destruct (logkeeper.deleteOne P l) eqn:E. simpl in *.
    rewrite !filter_cons_True by done. by rewrite IH.
Qed.

End AdapterFacts.

Section Retention.
Import logkeeper.
Variable cutoff : time.Duration.
Variable out : Outage.

Lemma eligible_iff now b :
  eligible cutoff now b ↔ Failed b = false ∧ Started b < now - cutoff.
Proof. unfold eligible, time.Before, time.Add. intuition lia. Qed.

Lemma GetOldBuilds_ok now limit d :
  out buildsCollection = false →
  GetOldBuilds cutoff out now limit d
  = (find (eligible cutoff now) limit (builds d), None).
Proof. intros Hup. unfold GetOldBuilds. by rewrite Hup. Qed.

Lemma GetOldBuilds_sound now limit d b :
  b ∈ fst (GetOldBuilds cutoff out now limit d) →
  eligible cutoff now b ∧ b ∈ builds d.
Proof.
  unfold GetOldBuilds. destruct (out buildsCollection); simpl.
  - by intros ?%elem_of_nil.
  - apply find_sound.
Qed.

Lemma Date_Jan15_2016 loc :
  time.Date 2016 time.January 15 0 0 0 0 loc = (1452816000 - loc) * 1000000000.
Proof.
  unfold time.Date.
  replace (time.days_from_civil 2016 time.January 15) with 16815 by done.
  replace time.Second with 1000000000 by done. lia.
Qed.

Lemma Date_Feb15_2016 loc :
  time.Date 2016 time.February 15 0 0 0 0 loc = (1455494400 - loc) * 1000000000.
Proof.
  unfold time.Date.
  replace (time.days_from_civil 2016 time.February 15) with 16846 by done.
  replace time.Second with 1000000000 by done. lia.
Qed.

Lemma fixture_healthy Local fresh cleared now0 d0 :
  (∀ c, out c = false) →
  ∃ d1,
    fixture cutoff out Local fresh cleared now0 d0
    = Some (d1, ["one"; "two"; "three"; "four"], true)
    ∧ builds d1
      = builds (clearCollections cleared d0) ++
        [oldBuild1 Local (taskInfo fresh); oldBuild2 Local (taskInfo fresh);
         edgeBuild cutoff now0 (taskInfo fresh); newBuild now0 (taskInfo fresh)]
    ∧ tests d1
      = tests (clearCollections cleared d0) ++
        [mkTest (fresh 1%nat) "one" time.zero; mkTest (fresh 2%nat) "two" time.zero;
         mkTest (fresh 3%nat) "three" time.zero; mkTest (fresh 4%nat) "four" time.zero]
    ∧ logs d1
      = logs (clearCollections cleared d0) ++
        [mkLog "one"; mkLog "one"; mkLog "two"; mkLog (Hex (fresh 5%nat))].
Proof.
  intros Hup. unfold fixture, insertBuilds, insertTests, insertLogs, InsertMany.
  rewrite !Hup. simpl. eauto.
Qed.

(** C5. For a positive [limit] and any store, [GetOldBuilds limit]
    returns at most [limit] builds, whatever the state of the store's
    connections; and when the query can execute and no build is
    eligible, it returns the empty sequence and no error. *)
Theorem GetOldBuilds_at_most_limit now limit d :
  0 < limit →
  Z.of_nat (length (fst (GetOldBuilds cutoff out now limit d))) ≤ limit
  ∧ (out buildsCollection = false →
     (∀ b, b ∈ builds d → ¬ eligible cutoff now b) →
     GetOldBuilds cutoff out now limit d = ([], None)).
Proof.
  intros Hpos. split.
  - unfold GetOldBuilds. destruct (out buildsCollection); simpl; [lia|].
    pose proof (find_length (eligible cutoff now) limit (builds d)). lia.
  - intros Hup Hno. rewrite GetOldBuilds_ok by done.
    by rewrite find_none.
Qed.

(** C1. With the query able to execute: every build that started
    strictly before [now - cutoff] and is not failed is among the builds
    [GetOldBuilds] returns, once the limit is no less than the number of
    eligible builds; a build that started at or after [now - cutoff], or
    that is failed, is never among them, whatever the limit. On the
    store of [TestGetOldTests] (the builds collection cleared, then the
    builds of January 2016, February 2016, [now0 - cutoff + 1 minute]
    and [now0] inserted) a batch of at least two returns exactly the
    January and February builds. *)
Theorem GetOldBuilds_retention now d :
  out buildsCollection = false →
  (∀ limit b,
     b ∈ builds d → Started b < now - cutoff → Failed b = false →
     Z.of_nat (count (eligible cutoff now) (builds d)) ≤ limit →
     b ∈ fst (GetOldBuilds cutoff out now limit d))
  ∧ (∀ limit b,
       now - cutoff ≤ Started b ∨ Failed b = true →
       b ∉ fst (GetOldBuilds cutoff out now limit d))
  ∧ (∀ CleanupBatchSize Local fresh now0 d0,
       (∀ c, out c = false) →
       2 ≤ CleanupBatchSize →
       now - now0 ≤ time.Minute → now - now0 ≤ cutoff →
       time.Date 2016 time.February 15 0 0 0 0 Local < now - cutoff →
       ∃ d1 ids,
         fixture cutoff out Local fresh [buildsCollection] now0 d0
         = Some (d1, ids, true)
         ∧ GetOldBuilds cutoff out now CleanupBatchSize d1
           = ([oldBuild1 Local (taskInfo fresh);
               oldBuild2 Local (taskInfo fresh)], None)
         ∧ TestGetOldTests cutoff CleanupBatchSize out Local fresh now0 now d0
           = Some true).
Proof.
  intros Hup. split; [|split].
  - intros limit b Hin Hold Hnf Hlim.
    rewrite GetOldBuilds_ok by done. simpl.
    rewrite find_all by done.
    apply list_elem_of_filter. split; [|done].
    by apply eligible_iff.
  - intros limit b Hnot Hin.
    apply GetOldBuilds_sound in Hin as [He _].
    apply (proj1 (eligible_iff _ _)) in He as [Hf Hs].
    destruct Hnot as [?|?]; [lia|congruence].
  - intros batch Local fresh now0 d0 Hall Hbatch Hmin Hcut Hfeb.
    destruct (fixture_healthy Local fresh [buildsCollection] now0 d0 Hall)
      as (d1 & Hfix & Hb & _ & _).
    assert (GetOldBuilds cutoff out now batch d1
            = ([oldBuild1 Local (taskInfo fresh);
                oldBuild2 Local (taskInfo fresh)], None)) as Hget.
    { rewrite GetOldBuilds_ok by done. rewrite Hb. simpl.
      pose proof (Date_Jan15_2016 Local) as HJ.
      pose proof (Date_Feb15_2016 Local) as HF.
      unfold find.
      rewrite filter_cons_True; [|apply eligible_iff; simpl; split; [done|lia]].
      rewrite filter_cons_True; [|apply eligible_iff; simpl; split; [done|lia]].
      rewrite filter_cons_False;
        [|rewrite eligible_iff; simpl; unfold time.Add; lia].
      rewrite filter_cons_False; [|rewrite eligible_iff; simpl; lia].
      rewrite filter_nil. apply (f_equal (λ l, (l, None))).
      apply take_ge. simpl. lia. }
    exists d1, ["one"; "two"; "three"; "four"]. split; [done|]. split; [done|].
    unfold TestGetOldTests. rewrite Hfix. simpl. by rewrite Hget.
Qed.

End Retention.

Section Cascade.
Import logkeeper.
Implicit Types (d : DB) (id : string) (out : Outage).

Lemma Cleanup_healthy out id d :
  (∀ c, out c = false) →
  CleanupOldLogsAndTestsByBuild out id d
  = (mkDB (fst (deleteOne (λ b, Id b = id) (builds d)))
          (filter (λ t, BuildId t ≠ id) (tests d))
          (filter (λ l, LogBuildId l ≠ id) (logs d)),
     (mkStats (snd (deleteOne (λ b, Id b = id) (builds d)))
              (count (λ t, BuildId t = id) (tests d))
              (count (λ l, LogBuildId l = id) (logs d)), None)).
Proof.
  intros Hup. unfold CleanupOldLogsAndTestsByBuild, deleteMany.
  rewrite !Hup. simpl.
  by destruct (deleteOne (λ b, Id b = id) (builds d)).
Qed.

Lemma Cleanup_error_by_outage out id d id' d' :
  snd (snd (CleanupOldLogsAndTestsByBuild out id d))
  = snd (snd (CleanupOldLogsAndTestsByBuild out id' d')).
Proof.
  unfold CleanupOldLogsAndTestsByBuild, deleteMany.
  destruct (out testsCollection); [done|].
  destruct (out logsCollection); [done|]. simpl.
  destruct (out buildsCollection); [done|].
  by destruct (deleteOne _ (builds d)), (deleteOne _ (builds d')).
Qed.

Lemma Cleanup_builds_subset out id d b :
  b ∈ builds (fst (CleanupOldLogsAndTestsByBuild out id d)) → b ∈ builds d.
Proof.
  unfold CleanupOldLogsAndTestsByBuild, deleteMany.
  destruct (out testsCollection); [done|].
  destruct (out logsCollection); [done|]. simpl.
  destruct (out buildsCollection); [done|].
  destruct (deleteOne _ (builds d)) as [bs nb] eqn:E. simpl.
  intros Hb. apply (deleteOne_sublist (λ b, Id b = id)). by rewrite E.
Qed.

Lemma deleteOne_unique id (l : list LogKeeperBuild) b :
  NoDup (Id <$> l) →
  b ∈ fst (deleteOne (λ b, Id b = id) l) → Id b ≠ id.
Proof.
  induction l as [|x l IH]; simpl; [by intros _ ?%elem_of_nil|].
  intros [Hx Hnd]%NoDup_cons.
  destruct (decide (Id x = id)) as [<-|Hne]; simpl.
  - intros Hb Heq. apply Hx. rewrite <- Heq. by apply list_elem_of_fmap_2.
  - destruct (deleteOne _ l) as [bs nb] eqn:E. simpl in *.
    intros [->|Hb]%elem_of_cons; [done|]. by apply IH.
Qed.

Lemma updateOne_elem id (l : list LogKeeperBuild) b :
  b ∈ updateOne (λ b, Id b = id) markFailed l →
  b ∈ l ∨ ∃ x, x ∈ l ∧ b = markFailed x.
Proof.
  induction l as [|x l IH]; simpl; [by intros ?%elem_of_nil|].
  destruct (decide (Id x = id)).
  - intros [->|Hb]%elem_of_cons.
    + right. exists x. split; [by left|done].
    + left. by right.
  - intros [->|Hb]%elem_of_cons; [left; by left|].
    destruct (IH Hb) as [?|(y & ? & ?)]; [left; by right|].
    right. exists y. split; [by right|done].
Qed.

Lemma updateOne_ids id (l : list LogKeeperBuild) :
  Id <$> updateOne (λ b, Id b = id) markFailed l = Id <$> l.
Proof.
  induction l as [|x l IH]; simpl; [done|].
  destruct (decide (Id x = id)); simpl; [done|]. f_equal. apply IH.
Qed.

Lemma updateOne_flags id (l : list LogKeeperBuild) b :
  NoDup (Id <$> l) →
  b ∈ updateOne (λ b, Id b = id) markFailed l → Id b = id →
  Failed b = true.
Proof.
  induction l as [|x l IH]; simpl; [by intros _ ?%elem_of_nil|].
  intros [Hx Hnd]%NoDup_cons.
  destruct (decide (Id x = id)) as [<-|Hne].
  - intros [->|Hb]%elem_of_cons Heq; [done|].
    exfalso. apply Hx. rewrite <- Heq. by apply list_elem_of_fmap_2.
  - intros [->|Hb]%elem_of_cons Heq; [done|]. by apply IH.
Qed.

Lemma updateOne_twice id (l : list LogKeeperBuild) :
  updateOne (λ b, Id b = id) markFailed
    (updateOne (λ b, Id b = id) markFailed l)
  = updateOne (λ b, Id b = id) markFailed l.
Proof.
  induction l as [|x l IH]; simpl; [done|].
  destruct (decide (Id x = id)) as [Heq|Hne]; simpl.
  - by rewrite decide_True by done.
  - rewrite decide_False by done. by rewrite IH.
Qed.

Lemma exec_keeps_flagged id d call :
  flagged id d → flagged id (exec d call).
Proof.
  intros Hfl. destruct call as [out [now limit|id'|id']]; simpl; [done| |].
  - intros b Hb. apply Hfl. by apply Cleanup_builds_subset in Hb.
  - unfold UpdateFailedBuild. destruct (out buildsCollection); [done|].
    simpl. intros b Hb Heq.
    apply updateOne_elem in Hb as [Hb|(x & Hx & ->)]; [by apply Hfl|done].
Qed.

Lemma run_keeps_flagged id calls d :
  flagged id d → flagged id (logkeeper.run calls d).
Proof.
  revert d. induction calls as [|c calls IH]; intros d Hfl; [done|].
  simpl. apply IH. by apply exec_keeps_flagged.
Qed.

Lemma flagged_excluded cutoff out now limit id d b :
  flagged id d →
  b ∈ fst (GetOldBuilds cutoff out now limit d) → Id b ≠ id.
Proof.
  intros Hfl [[Hnf _] Hin]%GetOldBuilds_sound Heq.
  rewrite (Hfl b Hin Heq) in Hnf. done.
Qed.

(** C2. With the store answering every call: when a build of
    identifier [id] exists and [k] tests and [m] logs refer to [id],
    [CleanupOldLogsAndTestsByBuild id] returns the counts [{1, k, m}]
    and no error; afterwards no test and no log refers to [id], and the
    tests, logs and builds of every other identifier are as they were. *)
Theorem Cleanup_cascades out id d k m :
  (∀ c, out c = false) →
  (∃ b, b ∈ builds d ∧ Id b = id) →
  count (λ t, BuildId t = id) (tests d) = k →
  count (λ l, LogBuildId l = id) (logs d) = m →
  ∃ d',
    CleanupOldLogsAndTestsByBuild out id d = (d', (mkStats 1 k m, None))
    ∧ count (λ t, BuildId t = id) (tests d') = 0%nat
    ∧ count (λ l, LogBuildId l = id) (logs d') = 0%nat
    ∧ tests d' = filter (λ t, BuildId t ≠ id) (tests d)
    ∧ logs d' = filter (λ l, LogBuildId l ≠ id) (logs d)
    ∧ filter (λ b, Id b ≠ id) (builds d')
      = filter (λ b, Id b ≠ id) (builds d).
Proof.
  intros Hup Hb Hk Hm. eexists. split.
  - rewrite Cleanup_healthy by done.
    rewrite (deleteOne_found (λ b, Id b = id)) by done.
    by rewrite Hk, Hm.
  - simpl. split; [|split; [|split; [done|split; [done|]]]].
    + apply (deleteMany_clears (λ t, BuildId t = id)).
    + apply (deleteMany_clears (λ l, LogBuildId l = id)).
    + apply (deleteOne_keeps_others (λ b, Id b = id)).
Qed.

(** C4. With the store answering every call, cleaning an identifier
    that has no build, test or log returns [{0, 0, 0}] with no error and
    leaves the store as it is. Whether a cleanup fails depends on the
    state of the store's connections alone, never on the identifier or
    on what is stored: in particular not on a kind having no records.
    So of two cleanups in a row of the same identifier, the second
    counts zero for every kind the first one removed (for builds:
    identifiers being unique), and its error is the one cleaning a
    nonexistent build gives. *)
Theorem Cleanup_idempotent id :
  (∀ out d,
     (∀ c, out c = false) → no_records id d →
     CleanupOldLogsAndTestsByBuild out id d = (d, (mkStats 0 0 0, None)))
  ∧ (∀ out d,
       (∀ c, out c = false) →
       snd (snd (CleanupOldLogsAndTestsByBuild out id d)) = None)
  ∧ (∀ out d id' d',
       snd (snd (CleanupOldLogsAndTestsByBuild out id d))
       = snd (snd (CleanupOldLogsAndTestsByBuild out id' d')))
  ∧ (∀ out1 out2 d,
       let first := CleanupOldLogsAndTestsByBuild out1 id d in
       let second := CleanupOldLogsAndTestsByBuild out2 id (fst first) in
       (out1 testsCollection = false →
        NumTests (fst (snd second)) = 0%nat)
       ∧ (out1 testsCollection = false → out1 logsCollection = false →
          NumLogs (fst (snd second)) = 0%nat)
       ∧ (unique_ids d → (∀ c, out1 c = false) →
          NumBuilds (fst (snd second)) = 0%nat)
       ∧ (unique_ids d → (∀ c, out1 c = false) → (∀ c, out2 c = false) →
          second = (fst first, (mkStats 0 0 0, None)))
       ∧ (∀ d0, no_records id d0 →
          snd (snd second)
          = snd (snd (CleanupOldLogsAndTestsByBuild out2 id d0)))).
Proof.
  assert (∀ out d, (∀ c, out c = false) → no_records id d →
    CleanupOldLogsAndTestsByBuild out id d = (d, (mkStats 0 0 0, None)))
    as Hnone.
  { intros out d Hup (Hb & Ht & Hl). rewrite Cleanup_healthy by done.
    rewrite (deleteOne_nothing (λ b, Id b = id)) by done. simpl.
    pose proof (deleteMany_nothing (λ t, BuildId t = id) (tests d)) as E1.
    pose proof (deleteMany_nothing (λ l, LogBuildId l = id) (logs d)) as E2.
    specialize (E1 ltac:(intros t Hin Heq; by apply (Ht t))).
    specialize (E2 ltac:(intros l Hin Heq; by apply (Hl l))).
    pose proof (f_equal fst E1) as E1a. pose proof (f_equal snd E1) as E1b.
    pose proof (f_equal fst E2) as E2a. pose proof (f_equal snd E2) as E2b.
    simpl in E1a, E1b, E2a, E2b.
    rewrite E1a, E1b, E2a, E2b. by destruct d. }
  assert (∀ out d, (∀ c, out c = false) → unique_ids d →
    no_records id (fst (CleanupOldLogsAndTestsByBuild out id d))) as Hgone.
  { intros out d Hup Hnd. rewrite Cleanup_healthy by done. simpl.
    split; [|split]; simpl.
    - intros b Hb. by apply deleteOne_unique in Hb.
    - by intros t [? _]%list_elem_of_filter.
    - by intros l [? _]%list_elem_of_filter. }
  split; [done|]. split; [|split; [intros; apply Cleanup_error_by_outage|]].
  { intros out d Hup. by rewrite Cleanup_healthy. }
  intros out1 out2 d first second.
  split; [|split; [|split; [|split]]].
  - intros H1. subst first second.
    unfold CleanupOldLogsAndTestsByBuild at 1.
    destruct (out2 testsCollection); [done|].
    assert (count (λ t, BuildId t = id)
              (tests (fst (CleanupOldLogsAndTestsByBuild out1 id d)))
            = 0%nat) as Hz.
    { unfold CleanupOldLogsAndTestsByBuild. rewrite H1. unfold deleteMany.
      destruct (out1 logsCollection); simpl;
        [apply (deleteMany_clears (λ t, BuildId t = id))|].
      destruct (out1 buildsCollection); simpl;
        [apply (deleteMany_clears (λ t, BuildId t = id))|].
      destruct (deleteOne _ (builds d)); simpl.
      apply (deleteMany_clears (λ t, BuildId t = id)). }
    unfold deleteMany. rewrite Hz.
    destruct (out2 logsCollection); [done|]. simpl.
    destruct (out2 buildsCollection); [done|].
    by destruct (deleteOne _ _).
  - intros H1 H2. subst first second.
    unfold CleanupOldLogsAndTestsByBuild at 1.
    destruct (out2 testsCollection); [done|].
    assert (count (λ l, LogBuildId l = id)
              (logs (fst (CleanupOldLogsAndTestsByBuild out1 id d)))
            = 0%nat) as Hz.
    { unfold CleanupOldLogsAndTestsByBuild. rewrite H1, H2.
      unfold deleteMany. simpl.
      destruct (out1 buildsCollection); simpl;
        [apply (deleteMany_clears (λ l, LogBuildId l = id))|].
      destruct (deleteOne _ (builds d)); simpl.
      apply (deleteMany_clears (λ l, LogBuildId l = id)). }
    unfold deleteMany.
    destruct (out2 logsCollection); [done|]. simpl. rewrite Hz.
    destruct (out2 buildsCollection); [done|].
    by destruct (deleteOne _ _).
  - intros Hnd Hup1. subst first second.
    pose proof (Hgone out1 d Hup1 Hnd) as (Hb & _ & _).
    unfold CleanupOldLogsAndTestsByBuild at 1. unfold deleteMany.
    destruct (out2 testsCollection); [done|].
    destruct (out2 logsCollection); [done|]. simpl.
    destruct (out2 buildsCollection); [done|].
    rewrite (deleteOne_nothing (λ b, Id b = id)); [done|].
    intros b Hin. by apply Hb.
  - intros Hnd Hup1 Hup2. subst first second.
    apply Hnone; [done|]. by apply Hgone.
  - intros d0 _. apply Cleanup_error_by_outage.
Qed.

End Cascade.

Section Protection.
Import logkeeper.
Variable cutoff : time.Duration.

Lemma updateOne_marks id (l : list LogKeeperBuild) b :
  NoDup (Id <$> l) → b ∈ l → Id b = id →
  markFailed b ∈ updateOne (λ b, Id b = id) markFailed l.
Proof.
  induction l as [|x l IH]; simpl; [by intros _ ?%elem_of_nil|].
  intros [Hx Hnd]%NoDup_cons [->|Hb]%elem_of_cons Heq.
  - rewrite decide_True by done. by left.
  - destruct (decide (Id x = id)) as [Hxid|Hne].
    + exfalso. apply Hx. rewrite Hxid, <- Heq. by apply list_elem_of_fmap_2.
    + right. by apply IH.
Qed.

Lemma UpdateFailedBuild_flags out id d :
  out buildsCollection = false → unique_ids d →
  flagged id (fst (UpdateFailedBuild out id d)).
Proof.
  intros Hup Hnd. unfold UpdateFailedBuild. rewrite Hup. simpl.
  intros b Hb Heq. by apply (updateOne_flags id (builds d)).
Qed.

(** C3. With the store answering and build identifiers unique: for a
    stored build [b], [UpdateFailedBuild (Id b)] succeeds and keeps the
    build, now marked failed; from then on no call of [GetOldBuilds], at
    any time and with any limit, returns a build of that identifier,
    however old [b] is. Marking again changes nothing, and the build
    stays excluded after any further calls of the engine's operations,
    none of which clears the flag. On the store of
    [TestUpdateFailedTest], marking the February build leaves the
    January build as the only one returned. *)
Theorem UpdateFailedBuild_protects out d b :
  out buildsCollection = false → unique_ids d → b ∈ builds d →
  ∃ d',
    UpdateFailedBuild out (Id b) d = (d', None)
    ∧ markFailed b ∈ builds d'
    ∧ (∀ out' now limit b',
         b' ∈ fst (GetOldBuilds cutoff out' now limit d') → Id b' ≠ Id b)
    ∧ UpdateFailedBuild out (Id b) d' = (d', None)
    ∧ (∀ calls out' now limit b',
         b' ∈ fst (GetOldBuilds cutoff out' now limit (logkeeper.run calls d')) →
         Id b' ≠ Id b)
    ∧ (∀ CleanupBatchSize Local fresh now0 now1 now2 d0,
         (∀ c, out c = false) → 2 ≤ CleanupBatchSize →
         now1 - now0 ≤ time.Minute → now1 - now0 ≤ cutoff →
         now2 - now0 ≤ time.Minute → now2 - now0 ≤ cutoff →
         time.Date 2016 time.February 15 0 0 0 0 Local < now1 - cutoff →
         time.Date 2016 time.February 15 0 0 0 0 Local < now2 - cutoff →
         TestUpdateFailedTest cutoff CleanupBatchSize out Local fresh
           now0 now1 now2 d0 = Some true).
Proof.
  intros Hup Hnd Hb.
  pose proof (UpdateFailedBuild_flags out (Id b) d Hup Hnd) as Hfl.
  exists (fst (UpdateFailedBuild out (Id b) d)).
  split; [|split; [|split; [|split; [|split]]]].
  - unfold UpdateFailedBuild. by rewrite Hup.
  - unfold UpdateFailedBuild. rewrite Hup. simpl. by apply updateOne_marks.
  - intros out' now limit b'. by apply flagged_excluded.
  - unfold UpdateFailedBuild. rewrite Hup. simpl.
    by rewrite updateOne_twice.
  - intros calls out' now limit b'. apply flagged_excluded.
    by apply run_keeps_flagged.
  - intros batch Local fresh now0 now1 now2 d0 Hall Hbatch
      Hm1 Hc1 Hm2 Hc2 Hf1 Hf2.
    destruct (fixture_healthy cutoff out Local fresh
                [buildsCollection; testsCollection; logsCollection]
                now0 d0 Hall) as (d1 & Hfix & Hbs & _ & _).
    simpl in Hbs.
    pose proof (Date_Jan15_2016 Local) as HJ.
    pose proof (Date_Feb15_2016 Local) as HF.
    unfold TestUpdateFailedTest. rewrite Hfix. simpl.
    rewrite GetOldBuilds_ok by done.
    unfold UpdateFailedBuild. rewrite Hup.
    rewrite GetOldBuilds_ok by done. simpl. rewrite Hbs. simpl.
    unfold find.
    rewrite !filter_cons_True
      by (apply eligible_iff; simpl; split; [done|lia]).
    rewrite filter_cons_False
      by (rewrite eligible_iff; simpl; unfold time.Add; lia).
    rewrite filter_cons_False by (rewrite eligible_iff; simpl; lia).
    rewrite filter_cons_True
      by (apply eligible_iff; simpl; split; [done|lia]).
    rewrite filter_cons_False by (rewrite eligible_iff; simpl; lia).
    rewrite filter_cons_False
      by (rewrite eligible_iff; simpl; unfold time.Add; lia).
    rewrite filter_cons_False by (rewrite eligible_iff; simpl; lia).
    rewrite !filter_nil.
    rewrite !take_ge by (simpl; lia). done.
Qed.

End Protection.

Section Scenarios.
Import logkeeper.
Variable cutoff : time.Duration.
Variable out : Outage.
Variable Local : time.Location.
Variable fresh : nat → ObjectID.
Hypothesis up : ∀ c, out c = false.

(** [TestCleanupOldLogsAndTestsByBuild] passes: cleaning build "one"
    removes one build, one test and two logs and leaves three tests and
    two logs, the hex of a new identifier not being "one". *)
Lemma TestCleanupOldLogsAndTestsByBuild_passes now0 d0 :
  Hex (fresh 5%nat) ≠ "one" →
  TestCleanupOldLogsAndTestsByBuild cutoff out Local fresh now0 d0
  = Some true.
Proof.
  intros Hhex.
  destruct (fixture_healthy cutoff out Local fresh
              [buildsCollection; testsCollection; logsCollection]
              now0 d0 up) as (d1 & Hfix & Hb & Ht & Hl).
  simpl in Hb, Ht, Hl.
  unfold TestCleanupOldLogsAndTestsByBuild. rewrite Hfix. simpl.
  rewrite Cleanup_healthy by done. rewrite Hb, Ht, Hl. simpl.
  unfold count. simpl.
  rewrite !(filter_cons (λ l, LogBuildId l = "one")),
          !(filter_cons (λ l, LogBuildId l ≠ "one")). simpl.
  rewrite (decide_False (P := Hex (fresh 5%nat) = "one")) by done.
  rewrite (decide_True (P := Hex (fresh 5%nat) ≠ "one")) by done.
  done.
Qed.

(** [TestNoErrorWithNoLogsOrTests] passes on a store that holds no log
    of "incompletebuild" (the test clears the tests collection only):
    the counts are [{1, 1, 0}] and then [{1, 0, 1}]. *)
Lemma TestNoErrorWithNoLogsOrTests_passes now0 d0 :
  (∀ l, l ∈ logs d0 → LogBuildId l ≠ "incompletebuild") →
  TestNoErrorWithNoLogsOrTests out fresh now0 d0 = true.
Proof.
  intros Hlogs.
  unfold TestNoErrorWithNoLogsOrTests, InsertMany. rewrite !up.
  rewrite !Cleanup_healthy by done. simpl.
  pose proof (deleteMany_nothing (λ l, LogBuildId l = "incompletebuild")
                (logs d0)) as Hd.
  specialize (Hd ltac:(intros l Hin Heq; by apply (Hlogs l))).
  pose proof (f_equal fst Hd) as Hd1. pose proof (f_equal snd Hd) as Hd2.
  simpl in Hd1, Hd2.
  rewrite !(deleteOne_found (λ b, Id b = "incompletebuild"));
    try (exists (mkBuild "incompletebuild" time.zero false ∅);
         split; [apply elem_of_app; right; by left|reflexivity]).
  rewrite Hd1, Hd2. unfold count. rewrite filter_app, length_app.
  unfold count in Hd2. rewrite Hd2. done.
Qed.

End Scenarios.

(** ** The engine on a concrete store *)

Section Concrete.
Import logkeeper sample.

Lemma GetOldBuilds_at_most_limit_witness :
  0 < 1
  ∧ Z.of_nat (length (fst (GetOldBuilds thirty_days healthy
                             noon_31_Oct_2026 1 sample_store))) ≤ 1
  ∧ GetOldBuilds thirty_days healthy noon_31_Oct_2026 1 empty_store
    = ([], None).
Proof.
  split; [lia|]. split.
  - apply (GetOldBuilds_at_most_limit thirty_days healthy
             noon_31_Oct_2026 1 sample_store). lia.
  - apply (GetOldBuilds_at_most_limit thirty_days healthy
             noon_31_Oct_2026 1 empty_store); [lia|reflexivity|].
    intros b Hb. inversion Hb.
Defined.

Lemma GetOldBuilds_retention_witness :
  build_a ∈ fst (GetOldBuilds thirty_days healthy noon_31_Oct_2026 1
                   sample_store)
  ∧ (build_b ∉ fst (GetOldBuilds thirty_days healthy noon_31_Oct_2026 5
                      sample_store))
  ∧ (build_c ∉ fst (GetOldBuilds thirty_days healthy noon_31_Oct_2026 5
                      sample_store))
  ∧ (∃ d1 ids,
        fixture thirty_days healthy 0 nth_oid [buildsCollection]
          noon_31_Oct_2026 sample_store = Some (d1, ids, true)
        ∧ GetOldBuilds thirty_days healthy noon_31_Oct_2026 2 d1
          = ([oldBuild1 0 (taskInfo nth_oid);
              oldBuild2 0 (taskInfo nth_oid)], None)
        ∧ TestGetOldTests thirty_days 2 healthy 0 nth_oid
            noon_31_Oct_2026 noon_31_Oct_2026 sample_store = Some true).
Proof.
  destruct (GetOldBuilds_retention thirty_days healthy noon_31_Oct_2026
              sample_store eq_refl) as (Hin & Hout & Hscenario).
  split; [|split; [|split]].
  - apply Hin; [by left|by vm_compute|reflexivity|by vm_compute].
  - apply Hout. right. reflexivity.
  - apply Hout. left. by vm_compute.
  - apply Hscenario; [reflexivity|lia|by vm_compute..].
Defined.

Lemma Cleanup_cascades_witness :
  ∃ d',
    CleanupOldLogsAndTestsByBuild healthy "a" sample_store
    = (d', (mkStats 1 1 2, None))
    ∧ count (λ t, BuildId t = "a") (tests d') = 0%nat
    ∧ count (λ l, LogBuildId l = "a") (logs d') = 0%nat
    ∧ tests d' = filter (λ t, BuildId t ≠ "a") (tests sample_store)
    ∧ logs d' = filter (λ l, LogBuildId l ≠ "a") (logs sample_store)
    ∧ filter (λ b, Id b ≠ "a") (builds d')
      = filter (λ b, Id b ≠ "a") (builds sample_store).
Proof.
  apply (Cleanup_cascades healthy "a" sample_store 1 2).
  - reflexivity.
  - exists build_a. split; [by left|reflexivity].
  - reflexivity.
  - reflexivity.
Defined.

Lemma UpdateFailedBuild_protects_witness :
  ∃ d',
    UpdateFailedBuild healthy "a" sample_store = (d', None)
    ∧ markFailed build_a ∈ builds d'
    ∧ (∀ now limit b',
         b' ∈ fst (GetOldBuilds thirty_days healthy now limit d') →
         Id b' ≠ "a")
    ∧ TestUpdateFailedTest thirty_days 2 healthy 0 nth_oid
        noon_31_Oct_2026 noon_31_Oct_2026 noon_31_Oct_2026 sample_store
      = Some true.
Proof.
  destruct (UpdateFailedBuild_protects thirty_days healthy sample_store
              build_a eq_refl)
    as (d' & Hupd & Hkept & Hexcl & _ & _ & Hscenario).
  - change (NoDup ["a"; "b"; "c"]).
    apply (@bool_decide_unpack _ (NoDup_dec _)). vm_compute. exact I.
  - by left.
  - exists d'. split; [exact Hupd|]. split; [exact Hkept|].
    split; [exact (Hexcl healthy)|].
    apply Hscenario; [reflexivity|lia|by vm_compute..].
Defined.

Lemma Cleanup_idempotent_witness :
  CleanupOldLogsAndTestsByBuild healthy "zz" sample_store
  = (sample_store, (mkStats 0 0 0, None))
  ∧ CleanupOldLogsAndTestsByBuild healthy "a"
      (fst (CleanupOldLogsAndTestsByBuild healthy "a" sample_store))
    = (fst (CleanupOldLogsAndTestsByBuild healthy "a" sample_store),
       (mkStats 0 0 0, None)).
Proof.
  destruct (Cleanup_idempotent "a") as (_ & _ & _ & Htwice).
  destruct (Cleanup_idempotent "zz") as (Hnone & _).
  split.
  - apply Hnone; [reflexivity|].
    split; [|split]; intros x Hx; simpl in Hx;
      repeat (apply elem_of_cons in Hx as [->|Hx]; [discriminate|]);
      inversion Hx.
  - apply (Htwice healthy healthy sample_store); [|reflexivity..].
    change (NoDup ["a"; "b"; "c"]).
    apply (@bool_decide_unpack _ (NoDup_dec _)). vm_compute. exact I.
Defined.

End Concrete.

(** * Properties of the service lifecycle *)

Section ListFacts.
Context {A B : Type}.

Lemma sum_list_insert (f : A → nat) (l : list A) i x y :
  l !! i = Some x →
  (sum_list (f <$> <[i:=y]> l) + f x = sum_list (f <$> l) + f y)%nat.
Proof.
  revert i. induction l as [|a l IH]; intros [|i] Hi; simplify_eq/=.
  - lia.
  - specialize (IH i Hi). lia.
Qed.

Lemma omap_insert_same (f : A → option B) (l : list A) i x y :
  l !! i = Some x → f y = f x → omap f (<[i:=y]> l) = omap f l.
Proof.
  revert i. induction l as [|a l IH]; intros [|i] Hi Hf; simplify_eq/=.
  - by rewrite Hf.
  - by rewrite (IH i).
Qed.

Lemma omap_insert_new (f : A → option B) (l : list A) i x y :
  l !! i = Some x → f x = None →
  omap f (<[i:=y]> l) ≡ₚ option_list (f y) ++ omap f l.
Proof.
  revert i. induction l as [|a l IH]; intros [|i] Hi Hf; simplify_eq/=.
  - rewrite Hf. by destruct (f y).
  - specialize (IH i Hi Hf). destruct (f a); [|done]. rewrite IH.
    destruct (f y); simpl; [apply Permutation_swap|done].
Qed.

Lemma sum_list_zero (f : A → nat) (l : list A) x :
  sum_list (f <$> l) = 0%nat → x ∈ l → f x = 0%nat.
Proof.
  induction l as [|a l IH]; csimpl; [by intros _ ?%elem_of_nil|].
  intros Hsum [->|Hx]%elem_of_cons; [lia|]. apply IH; [lia|done].
Qed.

Lemma omap_ext_in (f g : A → option B) (l : list A) :
  (∀ x, x ∈ l → f x = g x) → omap f l = omap g l.
Proof.
  induction l as [|a l IH]; intros Hfg; csimpl; [done|].
  rewrite (Hfg a) by (by left).
  rewrite IH; [done|]. intros x Hx. apply Hfg. by right.
Qed.

End ListFacts.

Section Lifecycle.
Import context http main.

Lemma Add_perm r c : grip.Add r c ≡ₚ option_list r ++ c.
Proof.
  destruct r as [e|]; simpl; [|done].
  by rewrite Permutation_app_comm.
Qed.

Lemma HasErrors_nil c : grip.HasErrors c = false ↔ c = [].
Proof. by destruct c. Qed.

Lemma spawnShutdowns_targets c srvs :
  target <$> spawnShutdowns c srvs = omap id srvs.
Proof.
  induction srvs as [|[s|] srvs IH]; csimpl; [done| |done].
  by rewrite IH.
Qed.

Lemma spawnShutdowns_elem c srvs t :
  t ∈ spawnShutdowns c srvs → shutdown_ctx t = c ∧ sstatus t = SCalling.
Proof.
  induction srvs as [|[s|] srvs IH]; simpl.
  - by intros ?%elem_of_nil.
  - intros [->|Ht]%elem_of_cons; [done|]. by apply IH.
  - apply IH.
Qed.

Lemma set_sstatus_targets (l : list ShutdownTask) j t st :
  l !! j = Some t → target <$> <[j := set_sstatus st t]> l = target <$> l.
Proof.
  intros Hj. rewrite list_fmap_insert. simpl.
  apply list_insert_id. by rewrite list_lookup_fmap, Hj.
Qed.

Lemma spawnShutdowns_pending c srvs :
  sum_list (spending <$> spawnShutdowns c srvs)
  = length (spawnShutdowns c srvs).
Proof.
  induction srvs as [|[s|] srvs IH]; csimpl; [done| |done].
  by rewrite IH.
Qed.

Lemma spawnShutdowns_none_added c srvs :
  omap shutdown_added (spawnShutdowns c srvs) = [].
Proof. induction srvs as [|[s|] srvs IH]; csimpl; done. Qed.

Lemma start_Inv c srvs : Inv (start c srvs).
Proof.
  split; simpl; try done.
  - unfold handed_over. simpl. rewrite app_nil_r.
    induction (length srvs) as [|n IH]; csimpl; done.
  - induction (length srvs) as [|n IH]; csimpl; [done|]. by rewrite <- IH.
  - by intros t ?%elem_of_nil.
Qed.

Lemma insert_elem {A} (l : list A) i x y :
  y ∈ <[i:=x]> l → y = x ∨ y ∈ l.
Proof.
  revert i. induction l as [|a l IH]; intros [|i]; simpl;
    try by intros ?%elem_of_nil.
  - intros [->|?]%elem_of_cons; [by left|right; by right].
  - intros [->|Hy]%elem_of_cons; [right; by left|].
    destruct (IH i Hy); [by left|right; by right].
Qed.

Lemma running_not_exited s : exited s = false → ∀ code, mainpc s ≠ MExited code.
Proof. intros Hex code Hc. unfold exited in Hex. by rewrite Hc in Hex. Qed.

Lemma step_Inv s e s' : Inv s → step s e = Some s' → Inv s'.
Proof.
  intros HI Hstep. unfold step in Hstep.
  destruct (exited s) eqn:Hex; [done|].
  pose proof (running_not_exited s Hex) as Hrun. clear Hex.
  destruct HI as [Hcatch Hsw Hwg Hgw Hgd Huns Hreq Htg Hms Hmg Hexit].
  destruct e as [i outcome|i|i| |j outcome|j|j| | | |].
  - (* ListenReturns *)
    destruct (listeners s !! i) as [[| | |]|] eqn:Hl; try done.
    destruct (servers s !! i) as [srv|] eqn:Hsrv; [|done].
    injection Hstep as <-.
    split; simpl; try done; try (intros code Hc; by destruct (Hrun code)).
    + unfold handed_over. simpl.
      by rewrite (omap_insert_same listener_added _ i LRunning).
    + pose proof (sum_list_insert lpending (listeners s) i LRunning
        (LReturned (listenServeAndHandleErrs (λ _, outcome) srv).2) Hl) as Hs.
      simpl in Hs. lia.
  - (* ListenerAdds *)
    destruct (listeners s !! i) as [[|r|r|r]|] eqn:Hl; try done.
    injection Hstep as <-.
    split; simpl; try done; try (intros code Hc; by destruct (Hrun code)).
    + unfold handed_over. simpl.
      rewrite (omap_insert_new listener_added _ i (LReturned r)) by done.
      simpl. rewrite Add_perm, <- app_assoc. by f_equiv.
    + pose proof (sum_list_insert lpending (listeners s) i (LReturned r)
        (LAdded r) Hl) as Hs.
      simpl in Hs. lia.
  - (* ListenerDone *)
    destruct (listeners s !! i) as [[|r|r|r]|] eqn:Hl; try done.
    destruct (serviceWait s) as [|n] eqn:Hn; [done|].
    injection Hstep as <-.
    split; simpl; try done; try (intros code Hc; by destruct (Hrun code)).
    + unfold handed_over. simpl.
      by rewrite (omap_insert_same listener_added _ i (LAdded r)).
    + pose proof (sum_list_insert lpending (listeners s) i (LAdded r)
        (LDone r) Hl) as Hs.
      simpl in Hs. lia.
    + intros Hm. by specialize (Hms Hm).
  - (* Signal *)
    destruct (sigtask s) eqn:Hsig; try done.
    injection Hstep as <-.
    specialize (Huns eq_refl).
    split; simpl; try done; try (intros code Hc; by destruct (Hrun code)).
    + unfold handed_over in *. simpl.
      rewrite spawnShutdowns_none_added. by rewrite Huns in Hcatch.
    + rewrite spawnShutdowns_pending, Hwg. by rewrite Huns.
    + intros t Ht. by destruct (spawnShutdowns_elem _ _ _ Ht).
    + intros _. apply spawnShutdowns_targets.
  - (* ShutdownReturns *)
    destruct (shutdowns s !! j) as [t|] eqn:Hj; [|done].
    destruct (sstatus t) eqn:Hst; try done.
    injection Hstep as <-.
    split; simpl; try done; try (intros code Hc; by destruct (Hrun code)).
    + unfold handed_over. simpl. rewrite Hcatch. unfold handed_over.
      f_equiv. rewrite (omap_insert_same shutdown_added _ j t); [done..|].
      unfold shutdown_added. simpl. by rewrite Hst.
    + pose proof (sum_list_insert spending (shutdowns s) j t
        (set_sstatus (SReturned outcome) t) Hj) as Hs.
      assert (spending t = 1%nat) as Ht by (unfold spending; by rewrite Hst).
      change (spending (set_sstatus (SReturned outcome) t)) with 1%nat in Hs. lia.
    + intros Hsig. by rewrite (Huns Hsig) in Hj.
    + intros t' [->|Ht]%insert_elem; [|by apply Hreq].
      simpl. apply Hreq. by eapply list_elem_of_lookup_2.
    + intros Hsig. rewrite set_sstatus_targets by done. by apply Htg.
  - (* ShutdownAdds *)
    destruct (shutdowns s !! j) as [t|] eqn:Hj; [|done].
    destruct (sstatus t) as [|r|r|r] eqn:Hst; try done.
    injection Hstep as <-.
    split; simpl; try done; try (intros code Hc; by destruct (Hrun code)).
    + unfold handed_over. simpl.
      rewrite (omap_insert_new shutdown_added _ j t); [|done|].
      2:{ unfold shutdown_added. by rewrite Hst. }
      unfold shutdown_added at 1. simpl.
      rewrite Add_perm, Hcatch. unfold handed_over.
      rewrite !app_assoc. f_equiv. apply Permutation_app_comm.
    + pose proof (sum_list_insert spending (shutdowns s) j t
        (set_sstatus (SAdded r) t) Hj) as Hs.
      assert (spending t = 1%nat) as Ht by (unfold spending; by rewrite Hst).
      change (spending (set_sstatus (SAdded r) t)) with 1%nat in Hs. lia.
    + intros Hsig. by rewrite (Huns Hsig) in Hj.
    + intros t' [->|Ht]%insert_elem; [|by apply Hreq].
      simpl. apply Hreq. by eapply list_elem_of_lookup_2.
    + intros Hsig. rewrite set_sstatus_targets by done. by apply Htg.
  - (* ShutdownDone *)
    destruct (shutdowns s !! j) as [t|] eqn:Hj; [|done].
    destruct (sstatus t) as [|r|r|r] eqn:Hst; try done.
    destruct (wg s) as [|n] eqn:Hn; [done|].
    injection Hstep as <-.
    split; simpl; try done; try (intros code Hc; by destruct (Hrun code)).
    + unfold handed_over. simpl. rewrite Hcatch. unfold handed_over.
      f_equiv. rewrite (omap_insert_same shutdown_added _ j t); [done..|].
      unfold shutdown_added. simpl. by rewrite Hst.
    + pose proof (sum_list_insert spending (shutdowns s) j t
        (set_sstatus (SDone r) t) Hj) as Hs.
      assert (spending t = 1%nat) as Ht by (unfold spending; by rewrite Hst).
      change (spending (set_sstatus (SDone r) t)) with 0%nat in Hs. lia.
    + intros Hsig. by specialize (Hgd Hsig).
    + intros Hsig. by rewrite (Huns Hsig) in Hj.
    + intros t' [->|Ht]%insert_elem; [|by apply Hreq].
      simpl. apply Hreq. by eapply list_elem_of_lookup_2.
    + intros Hsig. rewrite set_sstatus_targets by done. by apply Htg.
  - (* ShutdownsWaited *)
    destruct (sigtask s) eqn:Hsig; try done.
    destruct (wg s) as [|] eqn:Hn; [|done].
    destruct (gracefulWait s) as [|n] eqn:Hg; [done|].
    injection Hstep as <-.
    split; simpl; try done; try (intros code Hc; by destruct (Hrun code));
      [lia|intros _; by apply Htg|intros _ _; lia].
  - (* MainServicesWaited *)
    destruct (mainpc s) eqn:Hpc; try done.
    destruct (serviceWait s) eqn:Hn; [|done].
    injection Hstep as <-.
    split; simpl; try done; congruence.
  - (* MainGracefulWaited *)
    destruct (mainpc s) eqn:Hpc; try done.
    destruct (gracefulWait s) eqn:Hn; [|done].
    injection Hstep as <-.
    split; simpl; try done; [congruence|intros _; by apply Hms].
  - (* MainResolves *)
    destruct (mainpc s) eqn:Hpc; try done.
    assert (s' = with_mainpc
              (MExited (if grip.HasErrors (catcher s) then 1 else 0)) s)
      as ->.
    { unfold grip.Resolve in Hstep.
      destruct (grip.HasErrors (catcher s)); simpl in Hstep; congruence. }
    split; simpl; try done.
    + intros _. by apply Hms.
    + intros _ _. by apply Hmg.
    + by intros code [= <-].
Qed.
End Lifecycle.

Section Runs.
Import context http main.

Lemma step_frame s e s' :
  step s e = Some s' → servers s' = servers s ∧ ctx s' = ctx s.
Proof.
  unfold step. destruct (exited s); [done|].
  destruct e; repeat case_match; by intros [= <-].
Qed.

Lemma run_Inv evs : ∀ s s', Inv s → run s evs = Some s' → Inv s'.
Proof.
  induction evs as [|e evs IH]; simpl; intros s s' HI Hrun.
  - by simplify_eq.
  - destruct (step s e) as [s1|] eqn:Hstep; [|done].
    eapply IH; [|done]. by eapply step_Inv.
Qed.

Lemma run_frame evs : ∀ s s',
  run s evs = Some s' → servers s' = servers s ∧ ctx s' = ctx s.
Proof.
  induction evs as [|e evs IH]; simpl; intros s s' Hrun.
  - by simplify_eq.
  - destruct (step s e) as [s1|] eqn:Hstep; [|done].
    destruct (step_frame _ _ _ Hstep) as [<- <-]. by apply IH.
Qed.

Lemma step_listener_back s e s' i r :
  step s e = Some s' → listener_back s i r → listener_back s' i r.
Proof.
  intros Hstep (st & Hi & Hne & Hr). unfold step in Hstep.
  destruct (exited s); [done|].
  destruct e as [i' outcome|i'|i'| |j outcome|j|j| | | |];
    repeat case_match; simplify_eq; try (by exists st).
  - unfold listener_back. simpl. destruct (decide (i' = i)) as [->|Hii].
    + congruence.
    + exists st. by rewrite list_lookup_insert_ne.
  - unfold listener_back. simpl. destruct (decide (i' = i)) as [->|Hii].
    + exists (LAdded r0).
      rewrite list_lookup_insert_eq by (by eapply lookup_lt_Some).
      by simplify_eq.
    + exists st. by rewrite list_lookup_insert_ne.
  - unfold listener_back. simpl. destruct (decide (i' = i)) as [->|Hii].
    + exists (LDone r0).
      rewrite list_lookup_insert_eq by (by eapply lookup_lt_Some).
      by simplify_eq.
    + exists st. by rewrite list_lookup_insert_ne.
Qed.

Lemma step_shutdown_back s e s' j r :
  Inv s → step s e = Some s' → shutdown_back s j r → shutdown_back s' j r.
Proof.
  intros HI Hstep (t & Hj & Hne & Hr). unfold step in Hstep.
  destruct (exited s); [done|].
  destruct e as [i outcome|i|i| |j' outcome|j'|j'| | | |].
  1-3, 8-11: repeat case_match; try done; injection Hstep as <-; by exists t.
  - destruct (sigtask s) eqn:Hsig; try done.
    rewrite (inv_unsignalled s HI) in Hj by done. done.
  - destruct (shutdowns s !! j') as [t'|] eqn:Hj'; [|done].
    destruct (sstatus t') eqn:Hst; try done.
    injection Hstep as <-.
    unfold shutdown_back. simpl. destruct (decide (j' = j)) as [->|Hjj].
    + congruence.
    + exists t. by rewrite list_lookup_insert_ne.
  - destruct (shutdowns s !! j') as [t'|] eqn:Hj'; [|done].
    destruct (sstatus t') as [|r'|r'|r'] eqn:Hst; try done.
    injection Hstep as <-.
    unfold shutdown_back. simpl. destruct (decide (j' = j)) as [->|Hjj].
    + assert (t' = t) as -> by congruence.
      exists (set_sstatus (SAdded r') t).
      rewrite list_lookup_insert_eq by (by eapply lookup_lt_Some).
      split; [done|]. split; [done|].
      unfold shutdown_result in *. simpl. by rewrite Hst in Hr.
    + exists t. by rewrite list_lookup_insert_ne.
  - destruct (shutdowns s !! j') as [t'|] eqn:Hj'; [|done].
    destruct (sstatus t') as [|r'|r'|r'] eqn:Hst; try done.
    destruct (wg s); [done|].
    injection Hstep as <-.
    unfold shutdown_back. simpl. destruct (decide (j' = j)) as [->|Hjj].
    + assert (t' = t) as -> by congruence.
      exists (set_sstatus (SDone r') t).
      rewrite list_lookup_insert_eq by (by eapply lookup_lt_Some).
      split; [done|]. split; [done|].
      unfold shutdown_result in *. simpl. by rewrite Hst in Hr.
    + exists t. by rewrite list_lookup_insert_ne.
Qed.

Lemma run_listener_back evs : ∀ s s' i r,
  run s evs = Some s' → listener_back s i r → listener_back s' i r.
Proof.
  induction evs as [|e evs IH]; simpl; intros s s' i r Hrun Hback.
  - by simplify_eq.
  - destruct (step s e) as [s1|] eqn:Hstep; [|done].
    eapply IH; [done|]. by eapply step_listener_back.
Qed.

Lemma run_shutdown_back evs : ∀ s s' j r,
  Inv s → run s evs = Some s' → shutdown_back s j r → shutdown_back s' j r.
Proof.
  induction evs as [|e evs IH]; simpl; intros s s' j r HI Hrun Hback.
  - by simplify_eq.
  - destruct (step s e) as [s1|] eqn:Hstep; [|done].
    eapply IH; [by eapply step_Inv|done|]. by eapply step_shutdown_back.
Qed.

Lemma ListenReturns_back evs : ∀ s s' i outcome,
  run s evs = Some s' → ListenReturns i outcome ∈ evs →
  ∃ srv, servers s !! i = Some srv
    ∧ listener_back s' i (snd (listenServeAndHandleErrs (λ _, outcome) srv)).
Proof.
  induction evs as [|e evs IH]; simpl; intros s s' i outcome Hrun Hin.
  - by apply elem_of_nil in Hin.
  - destruct (step s e) as [s1|] eqn:Hstep; [|done].
    apply elem_of_cons in Hin as [<-|Hin].
    + unfold step in Hstep. destruct (exited s); [done|].
      destruct (listeners s !! i) as [[| | |]|] eqn:Hl; try done.
      destruct (servers s !! i) as [srv|] eqn:Hsrv; [|done].
      injection Hstep as <-. exists srv. split; [done|].
      eapply run_listener_back; [done|].
      eexists. simpl.
      rewrite list_lookup_insert_eq by (by eapply lookup_lt_Some). done.
    + destruct (step_frame _ _ _ Hstep) as [<- _]. by eapply IH.
Qed.

Lemma ShutdownReturns_back evs : ∀ s s' j outcome,
  Inv s → run s evs = Some s' → ShutdownReturns j outcome ∈ evs →
  shutdown_back s' j outcome.
Proof.
  induction evs as [|e evs IH]; simpl; intros s s' j outcome HI Hrun Hin.
  - by apply elem_of_nil in Hin.
  - destruct (step s e) as [s1|] eqn:Hstep; [|done].
    pose proof (step_Inv _ _ _ HI Hstep) as HI1.
    apply elem_of_cons in Hin as [<-|Hin]; [|by eapply IH].
    unfold step in Hstep. destruct (exited s); [done|].
    destruct (shutdowns s !! j) as [t|] eqn:Hj; [|done].
    destruct (sstatus t) eqn:Hst; try done.
    injection Hstep as <-.
    eapply run_shutdown_back; [done..|].
    eexists. simpl.
    rewrite list_lookup_insert_eq by (by eapply lookup_lt_Some). done.
Qed.

Lemma listener_back_captured s i e :
  listener_back s i (Some e) → e ∈ captured s.
Proof.
  intros (st & Hi & _ & Hr). unfold captured.
  apply elem_of_app. left. apply list_elem_of_omap.
  exists st. split; [by eapply list_elem_of_lookup_2|done].
Qed.

Lemma shutdown_back_captured s j e :
  shutdown_back s j (Some e) → e ∈ captured s.
Proof.
  intros (t & Hj & _ & Hr). unfold captured.
  apply elem_of_app. right. apply list_elem_of_omap.
  exists t. split; [by eapply list_elem_of_lookup_2|done].
Qed.

(** When [main] is past both waits, every goroutine has signed off, so
    the catcher holds exactly what the goroutines came back with. *)
Lemma resolved_catcher s :
  Inv s → mainpc s ≠ MWaitServices → mainpc s ≠ MWaitGraceful →
  catcher s ≡ₚ captured s
  ∧ (∀ st, st ∈ listeners s → ∃ r, st = LDone r)
  ∧ sigtask s = GDone
  ∧ (∀ t, t ∈ shutdowns s → ∃ r, sstatus t = SDone r).
Proof.
  intros HI Hm1 Hm2.
  pose proof (inv_main_services s HI Hm1) as Hsw.
  pose proof (inv_main_graceful s HI Hm1 Hm2) as Hgw.
  rewrite (inv_serviceWait s HI) in Hsw.
  assert (sigtask s = GDone) as Hsig.
  { pose proof (inv_gracefulWait s HI) as Hg. rewrite Hgw in Hg.
    by destruct (sigtask s). }
  pose proof (inv_graceful_done s HI Hsig) as Hwg.
  rewrite (inv_wg s HI) in Hwg.
  assert (∀ st, st ∈ listeners s → ∃ r, st = LDone r) as Hl.
  { intros st Hst. pose proof (sum_list_zero lpending _ st Hsw Hst) as Hp.
    destruct st; try done. by eexists. }
  assert (∀ t, t ∈ shutdowns s → ∃ r, sstatus t = SDone r) as Hs.
  { intros t Ht. pose proof (sum_list_zero spending _ t Hwg Ht) as Hp.
    unfold spending in Hp. destruct (sstatus t); try done. by eexists. }
  split; [|done].
  rewrite (inv_catcher s HI). unfold handed_over, captured.
  rewrite (omap_ext_in listener_added listener_result).
  - rewrite (omap_ext_in shutdown_added shutdown_result); [done|].
    intros t Ht. destruct (Hs t Ht) as [r Hr].
    unfold shutdown_added, shutdown_result. by rewrite Hr.
  - intros st Hst. by destruct (Hl st Hst) as [r ->].
Qed.

End Runs.

Section Claims.
Import context http main.
Variable BuildRevision : string.

(** C6. For a server that is not [nil], and [ListenAndServe] coming
    back with an error as it always does: [listenServeAndHandleErrs]
    returns [nil] exactly when that error is [http.ErrServerClosed]; any
    other error is returned as it is, and [catcher.Add] of the result
    then collects it, while the [nil] of a closed server adds nothing. *)
Theorem listenServeAndHandleErrs_closed_is_nil
    (ListenAndServe : Server → error) (srv : Server) :
  ListenAndServe srv ≠ None →
  (snd (listenServeAndHandleErrs ListenAndServe (Some srv)) = None
   ↔ ListenAndServe srv = Some ErrServerClosed)
  ∧ (∀ e, ListenAndServe srv = Some e → e ≠ ErrServerClosed →
       snd (listenServeAndHandleErrs ListenAndServe (Some srv)) = Some e
       ∧ ∀ c, grip.Add
                (snd (listenServeAndHandleErrs ListenAndServe (Some srv))) c
              = c ++ [e])
  ∧ (ListenAndServe srv = Some ErrServerClosed →
     ∀ c, grip.Add
            (snd (listenServeAndHandleErrs ListenAndServe (Some srv))) c
          = c).
Proof.
  intros Hnn. unfold listenServeAndHandleErrs.
  destruct (ListenAndServe srv) as [[|msg]|] eqn:Hout; [| |done]; simpl.
  - split; [done|]. split; [|done]. by intros e [= <-].
  - split; [done|]. split; [|done]. by intros e [= <-].
Qed.

(** C9. Called with a [nil] server, [listenServeAndHandleErrs] makes no
    call of [ListenAndServe], logs nothing and returns the error "no
    server defined". The shutdown loop skips the [nil] entries of its
    server list: the shutdown requests it issues go to the non-nil
    servers, one each and in order, and the signal is handled whatever
    the list holds. *)
Theorem nil_servers_are_guarded (ListenAndServe : Server → error)
    (c : Context) (srvs : list (option Server)) :
  listenServeAndHandleErrs ListenAndServe None
  = ([], Some (Err "no server defined"))
  ∧ target <$> spawnShutdowns c srvs = omap id srvs
  ∧ spawnShutdowns c (None :: srvs) = spawnShutdowns c srvs
  ∧ ∃ s, step (start c srvs) Signal = Some s
         ∧ target <$> shutdowns s = omap id srvs
         ∧ wg s = length (omap id srvs).
Proof.
  split; [done|]. split; [apply spawnShutdowns_targets|]. split; [done|].
  eexists. split; [done|]. simpl. split; [apply spawnShutdowns_targets|].
  by rewrite <- (spawnShutdowns_targets c), length_fmap.
Qed.

(** C10. [getService addr n] returns a server, never [nil], whose
    [Addr] is [addr] and whose [Handler] is [n], with [ReadTimeout] one
    minute, [ReadHeaderTimeout] thirty seconds and [WriteTimeout] one
    minute; both servers [main] starts are made by it and have these
    timeouts. *)
Theorem getService_fields (addr : string) (n : handler) :
  (∃ srv, snd (getService BuildRevision addr n) = Some srv
     ∧ Addr srv = addr ∧ Handler srv = n
     ∧ ReadTimeout srv = time.Minute
     ∧ ReadHeaderTimeout srv = 30 * time.Second
     ∧ WriteTimeout srv = time.Minute
     ∧ ReadTimeout srv = 60000000000
     ∧ ReadHeaderTimeout srv = 30000000000
     ∧ WriteTimeout srv = 60000000000)
  ∧ (∀ httpPort pprof s,
       s ∈ main_servers BuildRevision httpPort n pprof →
       ∃ srv, s = Some srv
         ∧ ReadTimeout srv = time.Minute
         ∧ ReadHeaderTimeout srv = 30 * time.Second
         ∧ WriteTimeout srv = time.Minute).
Proof.
  split.
  - eexists. split; [done|]. by repeat split.
  - intros httpPort pprof s Hs. unfold main_servers in Hs.
    apply elem_of_cons in Hs as [->|Hs]; [by eexists|].
    apply elem_of_cons in Hs as [->|Hs]; [by eexists|].
    by apply elem_of_nil in Hs.
Qed.

Lemma start_run_exit c srvs evs s code :
  run (start c srvs) evs = Some s → mainpc s = MExited code →
  catcher s ≡ₚ captured s
  ∧ (∀ i outcome srv e,
       ListenReturns i outcome ∈ evs → srvs !! i = Some srv →
       snd (listenServeAndHandleErrs (λ _, outcome) srv) = Some e →
       e ∈ catcher s)
  ∧ (∀ j e, ShutdownReturns j (Some e) ∈ evs → e ∈ catcher s)
  ∧ (code = 1 ↔ catcher s ≠ [])
  ∧ (code = 0 ↔ catcher s = []).
Proof.
  intros Hrun Hexit.
  pose proof (run_Inv evs _ _ (start_Inv c srvs) Hrun) as HI.
  destruct (resolved_catcher s HI) as (Hperm & _); [by rewrite Hexit..|].
  split; [done|]. split; [|split].
  - intros i outcome srv e Hin Hsrv He. rewrite Hperm.
    destruct (ListenReturns_back _ _ _ _ _ Hrun Hin) as (srv' & Hs' & Hb).
    simpl in Hs'. assert (srv' = srv) as -> by congruence.
    rewrite He in Hb. by eapply listener_back_captured.
  - intros j e Hin. rewrite Hperm.
    eapply shutdown_back_captured.
    by eapply ShutdownReturns_back; [apply start_Inv|..].
  - pose proof (inv_exit s HI code Hexit) as Hc.
    destruct (catcher s) as [|e l]; simpl in Hc; subst code.
    + split; [split; done|done].
    + split; [done|split; done].
Qed.

(** C7. In every run of [main] that reaches its end: each error
    [listenServeAndHandleErrs] came back with in either service
    goroutine, and each error a call of [Shutdown] came back with, is in
    the one catcher, which holds nothing else; and the exit status is 1
    if the catcher holds an error and 0 if it holds none. *)
Theorem main_exit_reflects_catcher (httpPort : Z) (n pprof : handler)
    (evs : list Event) (s : State) (code : Z) :
  run (main_start BuildRevision httpPort n pprof) evs = Some s →
  mainpc s = MExited code →
  catcher s ≡ₚ captured s
  ∧ (∀ i outcome srv e,
       ListenReturns i outcome ∈ evs →
       main_servers BuildRevision httpPort n pprof !! i = Some srv →
       snd (listenServeAndHandleErrs (λ _, outcome) srv) = Some e →
       e ∈ catcher s)
  ∧ (∀ j e, ShutdownReturns j (Some e) ∈ evs → e ∈ catcher s)
  ∧ (code = 1 ↔ catcher s ≠ [])
  ∧ (code = 0 ↔ catcher s = []).
Proof. apply start_run_exit. Qed.

(** C8, as amended. In every run of [main]: while the signal has not
    been delivered the process has not ended, and its delivery issues a
    shutdown request to each of the two servers; once it has been
    delivered, each request runs in a goroutine of its own, which can
    come back whatever the other does, and carries the context of
    [main], which can be cancelled but has no deadline; the shutdown
    goroutine signs off from [gracefulWait] only when every request has
    come back and been handed to the catcher, and [main] ends only
    after that. *)
Theorem graceful_shutdown_waits_for_all (httpPort : Z) (n pprof : handler)
    (evs : list Event) (s : State) :
  run (main_start BuildRevision httpPort n pprof) evs = Some s →
  (sigtask s = GAwaitSignal →
   ∃ s', step s Signal = Some s'
     ∧ Some <$> (target <$> shutdowns s')
       = main_servers BuildRevision httpPort n pprof
     ∧ ∀ t, t ∈ shutdowns s' → sstatus t = SCalling)
  ∧ (sigtask s ≠ GAwaitSignal →
     Some <$> (target <$> shutdowns s)
     = main_servers BuildRevision httpPort n pprof)
  ∧ (∀ t, t ∈ shutdowns s →
       shutdown_ctx t = WithCancel Background
       ∧ Deadline (shutdown_ctx t) = None)
  ∧ (∀ j t outcome,
       shutdowns s !! j = Some t → sstatus t = SCalling →
       exited s = false → is_Some (step s (ShutdownReturns j outcome)))
  ∧ (sigtask s = GDone → ∀ t, t ∈ shutdowns s → ∃ r, sstatus t = SDone r)
  ∧ (∀ code, mainpc s = MExited code →
       sigtask s = GDone ∧ ∀ t, t ∈ shutdowns s → ∃ r, sstatus t = SDone r).
Proof.
  intros Hrun.
  pose proof (run_Inv evs _ _ (start_Inv _ _) Hrun) as HI.
  destruct (run_frame _ _ _ Hrun) as [Hsrv Hctx]. simpl in Hsrv, Hctx.
  assert (sigtask s = GDone → ∀ t, t ∈ shutdowns s → ∃ r, sstatus t = SDone r)
    as Hdone.
  { intros Hg t Ht.
    pose proof (inv_graceful_done s HI Hg) as Hwg.
    rewrite (inv_wg s HI) in Hwg.
    pose proof (sum_list_zero spending _ t Hwg Ht) as Hp.
    unfold spending in Hp. destruct (sstatus t); try done. by eexists. }
  assert (∀ code, mainpc s = MExited code → sigtask s = GDone) as Hend.
  { intros code Hc.
    by destruct (resolved_catcher s HI) as (_ & _ & Hg & _);
      [by rewrite Hc..|]. }
  split; [|split; [|split; [|split; [|split]]]].
  - intros Hsig.
    assert (exited s = false) as Hex.
    { unfold exited. destruct (mainpc s) eqn:Hpc; try done.
      rewrite (Hend _ eq_refl) in Hsig. done. }
    unfold step. rewrite Hex, Hsig. eexists. split; [done|]. simpl.
    split.
    + by rewrite spawnShutdowns_targets, Hsrv.
    + intros t Ht. by destruct (spawnShutdowns_elem _ _ _ Ht).
  - intros Hsig. rewrite (inv_targets s HI Hsig), Hsrv. done.
  - intros t Ht. rewrite (inv_requests s HI t Ht), Hctx. done.
  - intros j t outcome Hj Hst Hex. unfold step. rewrite Hex, Hj, Hst. done.
  - done.
  - intros code Hc. split; [by eapply Hend|]. apply Hdone. by eapply Hend.
Qed.

End Claims.

(** ** The lifecycle on concrete runs *)

Section ConcreteLifecycle.
Import context http main sample.

Lemma listenServeAndHandleErrs_closed_is_nil_witness :
  snd (listenServeAndHandleErrs (λ _, Some ErrServerClosed)
         (lkService "dev" 8080 negroni)) = None
  ∧ snd (listenServeAndHandleErrs (λ _, Some (Err "bind: address already in use"))
           (lkService "dev" 8080 negroni))
    = Some (Err "bind: address already in use").
Proof.
  split.
  - apply (listenServeAndHandleErrs_closed_is_nil
             (λ _, Some ErrServerClosed)); [discriminate|reflexivity].
  - apply (listenServeAndHandleErrs_closed_is_nil
             (λ _, Some (Err "bind: address already in use")));
      [discriminate|reflexivity|discriminate].
Defined.

Lemma main_exit_reflects_catcher_witness :
  ∃ s,
    run main_8080 failing_schedule = Some s
    ∧ mainpc s = MExited 1
    ∧ catcher s ≡ₚ captured s
    ∧ Err "listen tcp 127.0.0.1:2285: bind: address already in use"
        ∈ catcher s
    ∧ Err "context canceled" ∈ catcher s
    ∧ catcher s ≠ [].
Proof.
  eexists. split; [vm_compute; reflexivity|]. split; [reflexivity|].
  match goal with
  | |- catcher ?s ≡ₚ _ ∧ _ =>
      destruct (main_exit_reflects_catcher "dev" 8080 negroni pprof
                  failing_schedule s 1)
        as (Hperm & Hlisten & Hshut & Hcode & _);
        [vm_compute; reflexivity|reflexivity|]
  end.
  split; [exact Hperm|]. split; [|split].
  - apply (Hlisten 1%nat
             (Some (Err "listen tcp 127.0.0.1:2285: bind: address already in use"))
             (pprofService "dev" pprof));
      [|reflexivity|reflexivity].
    unfold failing_schedule. by left.
  - apply (Hshut 1%nat). unfold failing_schedule.
    do 4 right. by left.
  - by apply Hcode.
Defined.

(** A run of [main] with no error at all ends with status 0. *)
Lemma main_exit_clean :
  ∃ s, run main_8080 clean_schedule = Some s
       ∧ mainpc s = MExited 0 ∧ catcher s = [].
Proof. eexists. split; [vm_compute; reflexivity|]. done. Qed.

Lemma graceful_shutdown_waits_for_all_witness :
  (∃ s', step main_8080 Signal = Some s'
     ∧ Some <$> (target <$> shutdowns s')
       = main_servers "dev" 8080 negroni pprof)
  ∧ ∃ s,
      run main_8080 [Signal] = Some s
      ∧ Some <$> (target <$> shutdowns s)
        = main_servers "dev" 8080 negroni pprof
      ∧ (∀ t, t ∈ shutdowns s → Deadline (shutdown_ctx t) = None)
      ∧ is_Some (step s (ShutdownReturns 1 None)).
Proof.
  split.
  - destruct (graceful_shutdown_waits_for_all "dev" 8080 negroni pprof
                [] main_8080 eq_refl) as (Hsignal & _).
    destruct (Hsignal eq_refl) as (s' & Hstep & Htargets & _).
    by exists s'.
  - eexists. split; [vm_compute; reflexivity|].
    match goal with
    | |- _ <$> (_ <$> shutdowns ?s) = _ ∧ _ =>
        destruct (graceful_shutdown_waits_for_all "dev" 8080 negroni pprof
                    [Signal] s)
          as (_ & Htargets & Hctx & Hfree & _);
          [vm_compute; reflexivity|]
    end.
    split; [by apply Htargets|]. split.
    + intros t Ht. by destruct (Hctx t Ht).
    + eapply (Hfree 1%nat); reflexivity.
Defined.

(** C8 as the specification words it fails on [main]: the requests that
    follow the signal carry a context without a deadline, so nothing
    bounds them. *)
Lemma shutdown_has_no_grace_period :
  ¬ bounded_shutdown_protocol main_8080.
Proof.
  intros Hclaim.
  destruct (run main_8080 [Signal]) as [s|] eqn:Hrun; [|by vm_compute in Hrun].
  destruct (Hclaim [Signal] s Hrun) as (_ & Hbounded & _).
  - vm_compute in Hrun. by simplify_eq.
  - vm_compute in Hrun. simplify_eq.
    destruct (Hbounded _ ltac:(by left)) as [d Hd]. by vm_compute in Hd.
Qed.

End ConcreteLifecycle.

(** * Further properties: the start-up of [main] *)

Section SplitFacts.
Import strings.
Implicit Types (s : string) (sep : Ascii.ascii).

Lemma Split_nonempty s sep : Split s sep ≠ [].
Proof.
  destruct s as [|c rest]; simpl; [done|].
  destruct (decide (c = sep)); [done|]. by destruct (Split rest sep).
Qed.

Lemma Join_cons_piece c piece pieces sep :
  Join (String c piece :: pieces) sep = String c (Join (piece :: pieces) sep).
Proof. unfold Join. by destruct pieces. Qed.

Lemma Split_Join s sep : Join (Split s sep) sep = s.
Proof.
  induction s as [|c rest IH]; simpl; [done|].
  destruct (decide (c = sep)) as [->|Hne].
  - pose proof (Split_nonempty rest sep) as Hn.
    destruct (Split rest sep) as [|piece pieces] eqn:E; [done|].
    change (String sep (Join (piece :: pieces) sep) = String sep rest).
    by rewrite IH.
  - pose proof (Split_nonempty rest sep) as Hn.
    destruct (Split rest sep) as [|piece pieces] eqn:E; [done|].
    by rewrite Join_cons_piece, IH.
Qed.

Lemma Split_length s sep : length (Split s sep) = S (Count s sep).
Proof.
  induction s as [|c rest IH]; simpl; [done|].
  destruct (decide (c = sep)); simpl; [by rewrite IH|].
  pose proof (Split_nonempty rest sep) as Hn.
  destruct (Split rest sep) as [|piece pieces]; [done|]. by simpl in *.
Qed.

Lemma Split_pieces s sep piece :
  piece ∈ Split s sep → Count piece sep = 0%nat.
Proof.
  revert piece. induction s as [|c rest IH]; simpl; intros piece.
  - by intros ->%list_elem_of_singleton.
  - destruct (decide (c = sep)) as [->|Hne].
    + intros [->|Hp]%elem_of_cons; [done|]. by apply IH.
    + pose proof (Split_nonempty rest sep) as Hn.
      destruct (Split rest sep) as [|p ps]; [done|].
      intros [->|Hp]%elem_of_cons.
      * simpl. rewrite decide_False by done. apply IH. by left.
      * apply IH. by right.
Qed.

Lemma Split_clean s sep : Count s sep = 0%nat → Split s sep = [s].
Proof.
  induction s as [|c rest IH]; simpl; [done|].
  destruct (decide (c = sep)); [done|]. intros Hc. by rewrite IH.
Qed.

Lemma Join_Split pieces sep :
  pieces ≠ [] → (∀ piece, piece ∈ pieces → Count piece sep = 0%nat) →
  Split (Join pieces sep) sep = pieces.
Proof.
  induction pieces as [|p ps IH]; [done|]. intros _ Hclean.
  assert (Count p sep = 0%nat) as Hp by (apply Hclean; by left).
  destruct ps as [|q qs].
  - unfold Join. simpl. by apply Split_clean.
  - assert (Split (Join (q :: qs) sep) sep = q :: qs) as IH'.
    { apply IH; [done|]. intros piece Hin. apply Hclean. by right. }
    clear IH Hclean.
    change (Join (p :: q :: qs) sep)
      with (p +:+ String sep (Join (q :: qs) sep)).
    induction p as [|c p IHp]; simpl.
    + rewrite decide_True by done. by rewrite IH'.
    + simpl in Hp. destruct (decide (c = sep)); [done|].
      by rewrite (IHp Hp).
Qed.

End SplitFacts.

Section StartupFacts.
Import context http main program.
Variable BuildRevision : string.
Variables AmboyWorkers QueueSizeCap AmboyTargetNumJobs : Z.
Variable AmboyInterval : time.Duration.
Variable answer : Call → error.

Local Abbreviation startup :=
  (startup AmboyWorkers QueueSizeCap AmboyTargetNumJobs AmboyInterval answer).
Local Abbreviation startup_calls :=
  (startup_calls AmboyWorkers QueueSizeCap AmboyTargetNumJobs AmboyInterval).

(** X1. The hosts handed to the driver are the pieces of [-dbhost] between
    its commas: joined by commas they give the flag back, there is one
    more of them than there are commas (so never none, and an empty flag
    gives one empty host), and none holds a comma; a list of comma-free
    hosts written with commas comes out as it went in. The replica set
    name handed over is the flag [-rsName], given or not. *)
Theorem dialInfo_hosts (f : Flags) :
  strings.Join (Addrs (dialInfo f)) strings.comma = dbHost f
  ∧ length (Addrs (dialInfo f)) = S (strings.Count (dbHost f) strings.comma)
  ∧ (∀ a, a ∈ Addrs (dialInfo f) → strings.Count a strings.comma = 0%nat)
  ∧ (∀ hosts,
       hosts ≠ [] →
       (∀ a, a ∈ hosts → strings.Count a strings.comma = 0%nat) →
       dbHost f = strings.Join hosts strings.comma →
       Addrs (dialInfo f) = hosts)
  ∧ ReplicaSetName (dialInfo f) = rsName f.
Proof.
  assert (Addrs (dialInfo f) = strings.Split (dbHost f) strings.comma) as ->.
  { unfold dialInfo. by case_decide. }
  split; [apply Split_Join|]. split; [apply Split_length|].
  split; [apply Split_pieces|]. split.
  - intros hosts Hne Hclean ->. by apply Join_Split.
  - unfold dialInfo. case_decide as Hrs; simpl; [done|].
    destruct (decide (rsName f = "")) as [->|]; [done|]. by destruct Hrs.
Qed.

Ltac in_list H :=
  repeat (apply elem_of_cons in H as [->|H]);
  [..|by apply elem_of_nil in H].

Lemma startup_spec (f : Flags) :
  ∃ p o,
    startup f fresh_process = (p, o)
    ∧ calls p `prefix_of` startup_calls f
    ∧ (∀ c, c ∈ calls p → fallible c = true → answer c ≠ None →
         o = Exited 1 ∧ last (calls p) = Some c)
    ∧ (∀ code, o = Exited code →
         code = 1
         ∧ ∃ c, last (calls p) = Some c ∧ fallible c = true
                ∧ answer c ≠ None)
    ∧ (o = Continue () →
         calls p = startup_calls f
         ∧ deferred p = [SenderClose; Cancel; LogStackTraceAndExit]
         ∧ ∀ c, c ∈ startup_calls f → fallible c = true → answer c = None)
    ∧ (∀ c, c ∈ deferred p →
         c = SenderClose ∨ c = Cancel ∨ c = LogStackTraceAndExit)
    ∧ (SenderClose ∉ calls p) ∧ (Cancel ∉ calls p).
Proof.
  unfold program.startup, bind, call, defer, EmergencyFatal, ret,
    fresh_process, program.startup_calls.
  simpl.
  repeat match goal with
         | |- context [answer ?c] =>
             destruct (answer c) as [?|] eqn:?; simpl
         end.
  all: eexists _, _; split; [reflexivity|]; simpl.
  all: split; [by eexists|].
  all: split;
    [intros c Hc Hf Ha; in_list Hc; try discriminate Hf; try congruence;
     by split|].
  all: split;
    [intros code Hcode;
     first [discriminate Hcode
           |injection Hcode as <-; split; [done|];
            eexists; split; [reflexivity|]; split; [done|congruence]]|].
  all: split;
    [intros Ho;
     first [discriminate Ho
           |split; [done|]; split; [done|];
            intros c Hc Hf; in_list Hc; try discriminate Hf; done]|].
  all: split; [intros c Hc; in_list Hc; auto|].
  all: split; intros Hc;
    repeat (apply elem_of_cons in Hc as [Hc|Hc]; [discriminate Hc|]);
    by apply elem_of_nil in Hc.
Qed.

(** X2. The start-up of [main] stops at the first call that comes back with
    an error: the process ends with status 1 there, and the calls made
    are the start-up's calls up to and with that one, every earlier one
    having succeeded. It gets through exactly when none of the nine
    calls it checks fails, and then it has made all thirteen calls and
    deferred [sender.Close], [cancel] and the recovery, in this order of
    running. *)
Theorem startup_stops_at_first_failure (f : Flags) :
  ∃ p o,
    startup f fresh_process = (p, o)
    ∧ calls p `prefix_of` startup_calls f
    ∧ (∀ c, c ∈ calls p → fallible c = true → answer c ≠ None →
         o = Exited 1 ∧ last (calls p) = Some c)
    ∧ (∀ code, o = Exited code →
         code = 1
         ∧ ∃ c, last (calls p) = Some c ∧ fallible c = true
                ∧ answer c ≠ None)
    ∧ (o = Continue () ↔
       (∀ c, c ∈ startup_calls f → fallible c = true → answer c = None))
    ∧ (o = Continue () →
         calls p = startup_calls f
         ∧ deferred p = [SenderClose; Cancel; LogStackTraceAndExit]).
Proof.
  destruct (startup_spec f)
    as (p & o & Hrun & Hpre & Hfail & Hexit & Hcont & _).
  exists p, o. split; [done|]. split; [done|]. split; [done|].
  split; [done|]. split; [split|].
  - intros Ho. by destruct (Hcont Ho) as (_ & _ & ?).
  - intros Hall. destruct o as [[]|code]; [done|].
    destruct (Hexit code eq_refl) as (_ & c & Hlast & Hf & Ha).
    destruct Ha. apply Hall; [|done].
    destruct Hpre as [k ->]. apply elem_of_app. left.
    by apply last_Some_elem_of.
  - intros Ho. by destruct (Hcont Ho) as (? & ? & _).
Qed.

Local Abbreviation main_ :=
  (program.main BuildRevision AmboyWorkers QueueSizeCap AmboyTargetNumJobs
     AmboyInterval answer).


End StartupFacts.

(** * Further properties: the goroutines of [main] *)

Section SumFacts.
Context {A : Type} (f : A → nat).

Lemma sum_list_pos_elem (l : list A) :
  sum_list (f <$> l) ≠ 0%nat → ∃ i x, l !! i = Some x ∧ f x ≠ 0%nat.
Proof.
  induction l as [|a l IH]; csimpl; [done|]. intros Hsum.
  destruct (decide (f a = 0%nat)) as [Ha|Ha].
  - destruct IH as (i & x & Hi & Hx); [lia|]. by exists (S i), x.
  - by exists 0%nat, a.
Qed.

Lemma sum_list_all_zero (l : list A) :
  (∀ x, x ∈ l → f x = 0%nat) → sum_list (f <$> l) = 0%nat.
Proof.
  induction l as [|a l IH]; csimpl; [done|]. intros Hall.
  rewrite (Hall a) by (by left). rewrite IH; [done|].
  intros x Hx. apply Hall. by right.
Qed.

End SumFacts.

Section Progress.
Import context http main progress.

Lemma start_reachable c srvs : reachable (start c srvs).
Proof. split; [apply start_Inv|]. simpl. by rewrite length_replicate. Qed.

Lemma step_reachable s e s' :
  reachable s → step s e = Some s' → reachable s'.
Proof.
  intros [HI Hlen] Hstep. split; [by eapply step_Inv|].
  destruct (step_frame _ _ _ Hstep) as [-> _]. rewrite <- Hlen.
  unfold step in Hstep. destruct (exited s); [done|].
  destruct e; repeat case_match; simplify_eq; simpl;
    by rewrite ?length_insert.
Qed.

Lemma run_reachable evs : ∀ s s',
  reachable s → run s evs = Some s' → reachable s'.
Proof.
  induction evs as [|e evs IH]; simpl; intros s s' Hr Hrun.
  - by simplify_eq.
  - destruct (step s e) as [s1|] eqn:Hstep; [|done].
    eapply IH; [|done]. by eapply step_reachable.
Qed.

Lemma listeners_done_iff s :
  Inv s →
  serviceWait s = 0%nat ↔ ∀ st, st ∈ listeners s → ∃ r, st = LDone r.
Proof.
  intros HI. rewrite (inv_serviceWait s HI). split.
  - intros Hsum st Hst.
    pose proof (sum_list_zero lpending _ st Hsum Hst) as Hp.
    destruct st; try done. by eexists.
  - intros Hall. apply sum_list_all_zero.
    intros st Hst. by destruct (Hall st Hst) as [r ->].
Qed.

Lemma shutdowns_done_iff s :
  Inv s →
  wg s = 0%nat ↔ ∀ t, t ∈ shutdowns s → ∃ r, sstatus t = SDone r.
Proof.
  intros HI. rewrite (inv_wg s HI). split.
  - intros Hsum t Ht.
    pose proof (sum_list_zero spending _ t Hsum Ht) as Hp.
    unfold spending in Hp. destruct (sstatus t); try done. by eexists.
  - intros Hall. apply sum_list_all_zero.
    intros t Ht. destruct (Hall t Ht) as [r Hr].
    unfold spending. by rewrite Hr.
Qed.

Lemma wait_groups_spec s :
  Inv s → exited s = false →
  (∀ i r, listeners s !! i = Some (LAdded r) →
     is_Some (step s (ListenerDone i)))
  ∧ (∀ j t r, shutdowns s !! j = Some t → sstatus t = SAdded r →
       is_Some (step s (ShutdownDone j)))
  ∧ (is_Some (step s MainServicesWaited) ↔
     mainpc s = MWaitServices
     ∧ ∀ st, st ∈ listeners s → ∃ r, st = LDone r)
  ∧ (is_Some (step s ShutdownsWaited) ↔
     sigtask s = GAwaitShutdowns
     ∧ ∀ t, t ∈ shutdowns s → ∃ r, sstatus t = SDone r)
  ∧ (is_Some (step s MainGracefulWaited) ↔
     mainpc s = MWaitGraceful ∧ sigtask s = GDone).
Proof.
  intros HI Hex. unfold step. rewrite Hex.
  split; [|split; [|split; [|split]]].
  - intros i r Hi. rewrite Hi.
    pose proof (sum_list_insert lpending _ i _ (LDone r) Hi) as Hs.
    rewrite <- (inv_serviceWait s HI) in Hs. simpl in Hs.
    destruct (serviceWait s); [lia|done].
  - intros j t r Hj Hst. rewrite Hj, Hst.
    pose proof (sum_list_insert spending _ j _ (set_sstatus (SDone r) t) Hj)
      as Hs.
    rewrite <- (inv_wg s HI) in Hs.
    assert (spending t = 1%nat) as Ht by (unfold spending; by rewrite Hst).
    change (spending (set_sstatus (SDone r) t)) with 0%nat in Hs.
    destruct (wg s); [lia|done].
  - rewrite <- (listeners_done_iff s HI).
    destruct (mainpc s), (serviceWait s); split;
      try (by intros [? [=]]); try (by intros [[=] ?]); try done.
  - rewrite <- (shutdowns_done_iff s HI).
    pose proof (inv_gracefulWait s HI) as Hg.
    destruct (sigtask s), (wg s); split;
      try (by intros [? [=]]); try (by intros [[=] ?]); try done.
    intros _. by rewrite Hg.
  - pose proof (inv_gracefulWait s HI) as Hg.
    destruct (mainpc s), (sigtask s); try rewrite Hg; split;
      try (by intros [? [=]]); try (by intros [[=] ?]); try done.
Qed.

Lemma some_move_enabled s :
  reachable s → exited s = false → ∃ e s', step s e = Some s'.
Proof.
  intros [HI Hlen] Hex.
  destruct (wait_groups_spec s HI Hex)
    as (Hldone & Hsdone & Hmain & Hwaited & Hgraceful).
  destruct (decide (serviceWait s = 0%nat)) as [Hsw|Hsw].
  - destruct (sigtask s) eqn:Hsig.
    + exists Signal. unfold step. rewrite Hex, Hsig. by eexists.
    + destruct (decide (wg s = 0%nat)) as [Hwg|Hwg].
      * exists ShutdownsWaited. apply Hwaited. split; [done|].
        by apply shutdowns_done_iff.
      * rewrite (inv_wg s HI) in Hwg.
        destruct (sum_list_pos_elem spending _ Hwg) as (j & t & Hj & Hp).
        unfold spending in Hp.
        destruct (sstatus t) as [|r|r|r] eqn:Hst; [| | |done].
        -- exists (ShutdownReturns j None). unfold step.
           rewrite Hex, Hj, Hst. by eexists.
        -- exists (ShutdownAdds j). unfold step.
           rewrite Hex, Hj, Hst. by eexists.
        -- exists (ShutdownDone j). by eapply Hsdone.
    + destruct (mainpc s) eqn:Hpc.
      * exists MainServicesWaited. apply Hmain. split; [done|].
        by apply listeners_done_iff.
      * exists MainGracefulWaited. by apply Hgraceful.
      * exists MainResolves. unfold step. rewrite Hex, Hpc.
        destruct (grip.EmergencyFatal _); by eexists.
      * unfold exited in Hex. by rewrite Hpc in Hex.
  - rewrite (inv_serviceWait s HI) in Hsw.
    destruct (sum_list_pos_elem lpending _ Hsw) as (i & st & Hi & Hp).
    destruct st as [|r|r|r]; [| | |done].
    + destruct (servers s !! i) as [srv|] eqn:Hsrv.
      * exists (ListenReturns i None). unfold step.
        rewrite Hex, Hi, Hsrv. by eexists.
      * apply lookup_ge_None in Hsrv. apply lookup_lt_Some in Hi. lia.
    + exists (ListenerAdds i). unfold step. rewrite Hex, Hi. by eexists.
    + exists (ListenerDone i). by eapply Hldone.
Qed.

Lemma step_moves s e s' :
  Inv s → step s e = Some s' → moves_left s = S (moves_left s').
Proof.
  intros HI Hstep. unfold step in Hstep.
  destruct (exited s); [done|]. unfold moves_left, gmoves.
  destruct e as [i outcome|i|i| |j outcome|j|j| | | |].
  - destruct (listeners s !! i) as [[| | |]|] eqn:Hl; try done.
    destruct (servers s !! i) as [srv|] eqn:Hsrv; [|done].
    injection Hstep as <-. simpl.
    pose proof (sum_list_insert lmoves (listeners s) i _
      (LReturned (listenServeAndHandleErrs (λ _, outcome) srv).2) Hl) as Hs.
    simpl in Hs. lia.
  - destruct (listeners s !! i) as [[|r|r|r]|] eqn:Hl; try done.
    injection Hstep as <-. simpl.
    pose proof (sum_list_insert lmoves (listeners s) i _ (LAdded r) Hl) as Hs.
    simpl in Hs. lia.
  - destruct (listeners s !! i) as [[|r|r|r]|] eqn:Hl; try done.
    destruct (serviceWait s); [done|].
    injection Hstep as <-. simpl.
    pose proof (sum_list_insert lmoves (listeners s) i _ (LDone r) Hl) as Hs.
    simpl in Hs. lia.
  - destruct (sigtask s) eqn:Hsig; try done.
    injection Hstep as <-. simpl.
    rewrite (inv_unsignalled s HI Hsig). csimpl.
    assert (sum_list (smoves <$> spawnShutdowns (ctx s) (servers s))
            = (3 * length (omap id (servers s)))%nat) as ->; [|lia].
    rewrite <- (spawnShutdowns_targets (ctx s)), length_fmap.
    induction (servers s) as [|[srv|] l IH]; csimpl; [done| |done].
    rewrite IH. unfold smoves. simpl. lia.
  - destruct (shutdowns s !! j) as [t|] eqn:Hj; [|done].
    destruct (sstatus t) eqn:Hst; try done.
    injection Hstep as <-. simpl.
    pose proof (sum_list_insert smoves (shutdowns s) j t
      (set_sstatus (SReturned outcome) t) Hj) as Hs.
    assert (smoves t = 3%nat) as Ht by (unfold smoves; by rewrite Hst).
    change (smoves (set_sstatus (SReturned outcome) t)) with 2%nat in Hs.
    lia.
  - destruct (shutdowns s !! j) as [t|] eqn:Hj; [|done].
    destruct (sstatus t) as [|r|r|r] eqn:Hst; try done.
    injection Hstep as <-. simpl.
    pose proof (sum_list_insert smoves (shutdowns s) j t
      (set_sstatus (SAdded r) t) Hj) as Hs.
    assert (smoves t = 2%nat) as Ht by (unfold smoves; by rewrite Hst).
    change (smoves (set_sstatus (SAdded r) t)) with 1%nat in Hs.
    lia.
  - destruct (shutdowns s !! j) as [t|] eqn:Hj; [|done].
    destruct (sstatus t) as [|r|r|r] eqn:Hst; try done.
    destruct (wg s); [done|].
    injection Hstep as <-. simpl.
    pose proof (sum_list_insert smoves (shutdowns s) j t
      (set_sstatus (SDone r) t) Hj) as Hs.
    assert (smoves t = 1%nat) as Ht by (unfold smoves; by rewrite Hst).
    change (smoves (set_sstatus (SDone r) t)) with 0%nat in Hs.
    lia.
  - destruct (sigtask s) eqn:Hsig; try done.
    destruct (wg s); [|done]. destruct (gracefulWait s); [done|].
    injection Hstep as <-. simpl. lia.
  - destruct (mainpc s) eqn:Hpc; try done.
    destruct (serviceWait s); [|done].
    injection Hstep as <-. simpl. lia.
  - destruct (mainpc s) eqn:Hpc; try done.
    destruct (gracefulWait s); [|done].
    injection Hstep as <-. simpl. lia.
  - destruct (mainpc s) eqn:Hpc; try done.
    destruct (grip.EmergencyFatal _); injection Hstep as <-; simpl; lia.
Qed.

Lemma run_moves evs : ∀ s s',
  Inv s → run s evs = Some s' →
  moves_left s = (length evs + moves_left s')%nat.
Proof.
  induction evs as [|e evs IH]; simpl; intros s s' HI Hrun.
  - by simplify_eq.
  - destruct (step s e) as [s1|] eqn:Hstep; [|done].
    rewrite (step_moves _ _ _ HI Hstep).
    rewrite (IH s1 s'); [lia|by eapply step_Inv|done].
Qed.

Lemma ended_no_moves s :
  Inv s → (∃ code, mainpc s = MExited code) ↔ moves_left s = 0%nat.
Proof.
  intros HI. split.
  - intros [code Hc].
    destruct (resolved_catcher s HI) as (_ & Hl & Hg & Hs);
      [by rewrite Hc..|].
    unfold moves_left, gmoves. rewrite Hg, Hc. simpl.
    rewrite (sum_list_all_zero lmoves), (sum_list_all_zero smoves); [done|..].
    + intros t Ht. destruct (Hs t Ht) as [r Hr]. unfold smoves. by rewrite Hr.
    + intros st Hst. by destruct (Hl st Hst) as [r ->].
  - unfold moves_left. intros Hm.
    destruct (mainpc s); simpl in Hm; try lia. by eexists.
Qed.

Lemma can_end s :
  reachable s →
  ∃ evs s' code,
    run s evs = Some s' ∧ mainpc s' = MExited code
    ∧ length evs = moves_left s.
Proof.
  remember (moves_left s) as m eqn:Hm. revert s Hm.
  induction m as [|m IH]; intros s Hm Hr.
  - destruct (proj2 (ended_no_moves s (proj1 Hr))) as [code Hc]; [done|].
    by exists [], s, code.
  - assert (exited s = false) as Hex.
    { unfold exited. destruct (mainpc s) eqn:Hpc; try done.
      assert (moves_left s = 0%nat) as H0; [|lia].
      apply ended_no_moves; [apply Hr|by eexists]. }
    destruct (some_move_enabled s Hr Hex) as (e & s1 & Hstep).
    pose proof (step_moves _ _ _ (proj1 Hr) Hstep) as Hdec.
    destruct (IH s1) as (evs & s' & code & Hrun & Hc & Hlen);
      [lia|by eapply step_reachable|].
    exists (e :: evs), s', code. simpl. rewrite Hstep.
    split; [done|]. split; [done|]. by rewrite Hlen.
Qed.

End Progress.

Section Origins.
Import context http main progress.

Lemma step_listener_origin s e s' i r :
  step s e = Some s' → listener_back s' i r →
  listener_back s i r
  ∨ ∃ outcome srv,
      e = ListenReturns i outcome ∧ servers s !! i = Some srv
      ∧ r = snd (listenServeAndHandleErrs (λ _, outcome) srv).
Proof.
  intros Hstep (st & Hi & Hne & Hr). unfold step in Hstep.
  destruct (exited s); [done|].
  destruct e as [i' outcome|i'|i'| |j outcome|j|j| | | |].
  4-11: left; repeat case_match; try done; injection Hstep as <-;
    by exists st.
  - destruct (listeners s !! i') as [[| | |]|] eqn:Hl; try done.
    destruct (servers s !! i') as [srv|] eqn:Hsrv; [|done].
    injection Hstep as <-. simpl in Hi.
    destruct (decide (i' = i)) as [->|Hii].
    + right. exists outcome, srv.
      rewrite list_lookup_insert_eq in Hi by (by eapply lookup_lt_Some).
      by simplify_eq.
    + left. exists st. by rewrite list_lookup_insert_ne in Hi.
  - destruct (listeners s !! i') as [[|r'|r'|r']|] eqn:Hl; try done.
    injection Hstep as <-. simpl in Hi. left.
    destruct (decide (i' = i)) as [->|Hii].
    + rewrite list_lookup_insert_eq in Hi by (by eapply lookup_lt_Some).
      simplify_eq. by exists (LReturned r').
    + exists st. by rewrite list_lookup_insert_ne in Hi.
  - destruct (listeners s !! i') as [[|r'|r'|r']|] eqn:Hl; try done.
    destruct (serviceWait s); [done|].
    injection Hstep as <-. simpl in Hi. left.
    destruct (decide (i' = i)) as [->|Hii].
    + rewrite list_lookup_insert_eq in Hi by (by eapply lookup_lt_Some).
      simplify_eq. by exists (LAdded r').
    + exists st. by rewrite list_lookup_insert_ne in Hi.
Qed.

Lemma step_shutdown_origin s e s' j r :
  step s e = Some s' → shutdown_back s' j r →
  shutdown_back s j r ∨ e = ShutdownReturns j r.
Proof.
  intros Hstep (t & Hj & Hne & Hr). unfold step in Hstep.
  destruct (exited s); [done|].
  destruct e as [i outcome|i|i| |j' outcome|j'|j'| | | |].
  1-3, 8-11: left; repeat case_match; try done; injection Hstep as <-;
    by exists t.
  - destruct (sigtask s); try done. injection Hstep as <-. simpl in Hj.
    apply list_elem_of_lookup_2 in Hj.
    by destruct (spawnShutdowns_elem _ _ _ Hj).
  - destruct (shutdowns s !! j') as [t'|] eqn:Hj'; [|done].
    destruct (sstatus t') eqn:Hst; try done.
    injection Hstep as <-. simpl in Hj.
    destruct (decide (j' = j)) as [->|Hjj].
    + right.
      rewrite list_lookup_insert_eq in Hj by (by eapply lookup_lt_Some).
      by simplify_eq.
    + left. exists t. by rewrite list_lookup_insert_ne in Hj.
  - destruct (shutdowns s !! j') as [t'|] eqn:Hj'; [|done].
    destruct (sstatus t') as [|r'|r'|r'] eqn:Hst; try done.
    injection Hstep as <-. simpl in Hj. left.
    destruct (decide (j' = j)) as [->|Hjj].
    + rewrite list_lookup_insert_eq in Hj by (by eapply lookup_lt_Some).
      simplify_eq. exists t'. split; [done|].
      unfold shutdown_result. rewrite Hst. by split.
    + exists t. by rewrite list_lookup_insert_ne in Hj.
  - destruct (shutdowns s !! j') as [t'|] eqn:Hj'; [|done].
    destruct (sstatus t') as [|r'|r'|r'] eqn:Hst; try done.
    destruct (wg s); [done|].
    injection Hstep as <-. simpl in Hj. left.
    destruct (decide (j' = j)) as [->|Hjj].
    + rewrite list_lookup_insert_eq in Hj by (by eapply lookup_lt_Some).
      simplify_eq. exists t'. split; [done|].
      unfold shutdown_result. rewrite Hst. by split.
    + exists t. by rewrite list_lookup_insert_ne in Hj.
Qed.

Lemma run_listener_origin evs : ∀ s0 s i r,
  run s0 evs = Some s → listener_back s i r →
  listener_back s0 i r
  ∨ ∃ outcome srv,
      ListenReturns i outcome ∈ evs ∧ servers s0 !! i = Some srv
      ∧ r = snd (listenServeAndHandleErrs (λ _, outcome) srv).
Proof.
  induction evs as [|e evs IH]; simpl; intros s0 s i r Hrun Hback.
  - left. by simplify_eq.
  - destruct (step s0 e) as [s1|] eqn:Hstep; [|done].
    destruct (step_frame _ _ _ Hstep) as [Hsrv _].
    destruct (IH _ _ _ _ Hrun Hback) as [Hb1|(o & srv & Hin & Hs & Hr)].
    + destruct (step_listener_origin _ _ _ _ _ Hstep Hb1)
        as [?|(o & srv & He & Hs & Hr)]; [by left|]. subst e.
      right. exists o, srv. split; [by left|done].
    + right. exists o, srv. rewrite <- Hsrv. split; [by right|done].
Qed.

Lemma run_shutdown_origin evs : ∀ s0 s j r,
  run s0 evs = Some s → shutdown_back s j r →
  shutdown_back s0 j r ∨ ShutdownReturns j r ∈ evs.
Proof.
  induction evs as [|e evs IH]; simpl; intros s0 s j r Hrun Hback.
  - left. by simplify_eq.
  - destruct (step s0 e) as [s1|] eqn:Hstep; [|done].
    destruct (IH _ _ _ _ Hrun Hback) as [Hb1|Hin]; [|right; by right].
    destruct (step_shutdown_origin _ _ _ _ _ Hstep Hb1) as [?| ->];
      [by left|right; by left].
Qed.

Lemma start_nothing_back c srvs :
  (∀ i r, ¬ listener_back (start c srvs) i r)
  ∧ (∀ j r, ¬ shutdown_back (start c srvs) j r).
Proof.
  split.
  - intros i r (st & Hi & Hne & _). simpl in Hi.
    apply lookup_replicate in Hi as [-> _]. done.
  - intros j r (t & Hj & _). done.
Qed.

Lemma run_signal evs : ∀ s0 s,
  run s0 evs = Some s → sigtask s0 = GAwaitSignal →
  sigtask s ≠ GAwaitSignal → Signal ∈ evs.
Proof.
  induction evs as [|e evs IH]; simpl; intros s0 s Hrun H0 Hs.
  - by simplify_eq.
  - destruct (step s0 e) as [s1|] eqn:Hstep; [|done].
    assert (e = Signal ∨ sigtask s1 = GAwaitSignal) as [->|H1].
    { unfold step in Hstep. destruct (exited s0); [done|].
      destruct e; try (by left); right;
        repeat case_match; simplify_eq; try done. }
    + by left.
    + right. by eapply IH.
Qed.

Lemma main_servers_not_nil rev port n pprof i srv :
  main_servers rev port n pprof !! i = Some srv → ∃ server, srv = Some server.
Proof.
  destruct i as [|[|i]]; simpl; intros [= <-]; by eexists.
Qed.

End Origins.

Section MainRuns.
Import context http main progress.
Variable BuildRevision : string.
Variables (httpPort : Z) (n pprof : handler).

Local Abbreviation main0 := (main_start BuildRevision httpPort n pprof).

Lemma main_run_reachable evs s : run main0 evs = Some s → reachable s.
Proof. apply run_reachable, start_reachable. Qed.

(** X4. In every state a run of [main] reaches before the process ends, the
    wait groups are in step with the goroutines. A goroutine that has
    handed its result to the catcher can always sign off: no counter
    goes below zero. [serviceWait.Wait()] lets [main] through exactly
    when both service goroutines have signed off, [wg.Wait()] lets the
    shutdown goroutine through exactly when every shutdown goroutine
    has, and [gracefulWait.Wait()] lets [main] through exactly when the
    shutdown goroutine has. *)
Theorem wait_groups_release_when_all_done (evs : list Event) (s : State) :
  run main0 evs = Some s → exited s = false →
  (∀ i r, listeners s !! i = Some (LAdded r) →
     is_Some (step s (ListenerDone i)))
  ∧ (∀ j t r, shutdowns s !! j = Some t → sstatus t = SAdded r →
       is_Some (step s (ShutdownDone j)))
  ∧ (is_Some (step s MainServicesWaited) ↔
     mainpc s = MWaitServices
     ∧ ∀ st, st ∈ listeners s → ∃ r, st = LDone r)
  ∧ (is_Some (step s ShutdownsWaited) ↔
     sigtask s = GAwaitShutdowns
     ∧ ∀ t, t ∈ shutdowns s → ∃ r, sstatus t = SDone r)
  ∧ (is_Some (step s MainGracefulWaited) ↔
     mainpc s = MWaitGraceful ∧ sigtask s = GDone).
Proof.
  intros Hrun. apply wait_groups_spec.
  by destruct (main_run_reachable _ _ Hrun).
Qed.

(** X5. No run of [main] gets stuck: in every state it reaches before the
    process ends some goroutine can move, given that the outside
    answers (the signal comes, [ListenAndServe] and [Shutdown] come
    back); and from every state it reaches there is a way on to the end
    of the process. *)
Theorem main_never_deadlocks (evs : list Event) (s : State) :
  run main0 evs = Some s →
  (exited s = false → ∃ e s', step s e = Some s')
  ∧ ∃ evs' s' code, run s evs' = Some s' ∧ mainpc s' = MExited code.
Proof.
  intros Hrun. pose proof (main_run_reachable _ _ Hrun) as Hr. split.
  - by apply some_move_enabled.
  - destruct (can_end s Hr) as (evs' & s' & code & ? & ? & _).
    by exists evs', s', code.
Qed.

(** X6. Every run of [main] is short: the moves made and the moves left add
    up to seventeen, so no schedule has more than seventeen moves, and
    the process has ended exactly when seventeen have been made. *)
Theorem main_ends_after_seventeen_moves (evs : list Event) (s : State) :
  run main0 evs = Some s →
  (length evs + moves_left s = 17)%nat
  ∧ (length evs ≤ 17)%nat
  ∧ ((∃ code, mainpc s = MExited code) ↔ length evs = 17%nat).
Proof.
  intros Hrun.
  pose proof (run_moves evs _ _ (start_Inv _ _) Hrun) as Hm.
  change (moves_left (start main_ctx
                        (main_servers BuildRevision httpPort n pprof)))
    with 17%nat in Hm.
  destruct (main_run_reachable _ _ Hrun) as [HI _].
  split; [lia|]. split; [lia|].
  rewrite (ended_no_moves s HI). lia.
Qed.

(** X7. When [main] is about to resolve the catcher, no goroutine is left
    that could add to it: every service and shutdown goroutine has
    signed off, the only move there is is [main]'s own, and it leaves
    the catcher as it is and ends the process with status 1 if the
    catcher holds an error and 0 if not. *)
Theorem resolve_has_no_race (evs : list Event) (s : State) :
  run main0 evs = Some s → mainpc s = MResolve →
  (∀ st, st ∈ listeners s → ∃ r, st = LDone r)
  ∧ (∀ t, t ∈ shutdowns s → ∃ r, sstatus t = SDone r)
  ∧ ∀ e s', step s e = Some s' →
      e = MainResolves ∧ catcher s' = catcher s
      ∧ mainpc s' = MExited (if grip.HasErrors (catcher s) then 1 else 0).
Proof.
  intros Hrun Hpc.
  destruct (main_run_reachable _ _ Hrun) as [HI _].
  destruct (resolved_catcher s HI) as (_ & Hl & Hg & Hs);
    [by rewrite Hpc..|].
  split; [done|]. split; [done|].
  intros e s' Hstep. unfold step in Hstep.
  destruct (exited s); [done|].
  destruct e as [i outcome|i|i| |j outcome|j|j| | | |].
  1-3: destruct (listeners s !! i) as [st|] eqn:Hi; [|done];
    destruct (Hl st (list_elem_of_lookup_2 _ _ _ Hi)) as [r ->]; done.
  - by rewrite Hg in Hstep.
  - destruct (shutdowns s !! j) as [t|] eqn:Hj; [|done].
    destruct (Hs t (list_elem_of_lookup_2 _ _ _ Hj)) as [r Hr].
    by rewrite Hr in Hstep.
  - destruct (shutdowns s !! j) as [t|] eqn:Hj; [|done].
    destruct (Hs t (list_elem_of_lookup_2 _ _ _ Hj)) as [r Hr].
    by rewrite Hr in Hstep.
  - destruct (shutdowns s !! j) as [t|] eqn:Hj; [|done].
    destruct (Hs t (list_elem_of_lookup_2 _ _ _ Hj)) as [r Hr].
    by rewrite Hr in Hstep.
  - by rewrite Hg in Hstep.
  - by rewrite Hpc in Hstep.
  - by rewrite Hpc in Hstep.
  - rewrite Hpc in Hstep. unfold grip.Resolve in Hstep.
    destruct (grip.HasErrors (catcher s)); simpl in Hstep;
      injection Hstep as <-; done.
Qed.

(** X8. A run of [main] to its end has the status 0 exactly when every
    [ListenAndServe] of it came back with [http.ErrServerClosed] (or
    [nil]) and every [Shutdown] of it came back with [nil]; any other
    outcome of either gives the status 1. *)
Theorem main_exit_status_by_outcomes (evs : list Event) (s : State)
    (code : Z) :
  run main0 evs = Some s → mainpc s = MExited code →
  (code = 0 ∨ code = 1)
  ∧ (code = 0 ↔
     (∀ i outcome, ListenReturns i outcome ∈ evs → closed_normally outcome)
     ∧ (∀ j outcome, ShutdownReturns j outcome ∈ evs → outcome = None)).
Proof.
  intros Hrun Hexit.
  destruct (main_run_reachable _ _ Hrun) as [HI _].
  destruct (start_run_exit _ _ _ _ _ Hrun Hexit)
    as (Hperm & Hlisten & Hshut & Hone & Hzero).
  split.
  { pose proof (inv_exit s HI code Hexit) as Hc.
    destruct (grip.HasErrors (catcher s)); [by right|by left]. }
  rewrite Hzero. split.
  - intros Hnil. split.
    + intros i outcome Hin.
      destruct (ListenReturns_back _ _ _ _ _ Hrun Hin) as (srv & Hsrv & _).
      destruct (main_servers_not_nil _ _ _ _ _ _ Hsrv) as [server ->].
      destruct outcome as [[|msg]|]; [by left| |by right].
      exfalso.
      pose proof (Hlisten i (Some (Err msg)) (Some server) (Err msg)
                    Hin Hsrv eq_refl) as He.
      rewrite Hnil in He. by apply elem_of_nil in He.
    + intros j [e|] Hin; [|done]. exfalso.
      pose proof (Hshut j e Hin) as He.
      rewrite Hnil in He. by apply elem_of_nil in He.
  - intros [Hl Hs].
    destruct (catcher s) as [|e l] eqn:Hc; [done|]. exfalso.
    assert (e ∈ captured s) as He by (rewrite <- Hperm; by left).
    destruct (start_nothing_back main_ctx
                (main_servers BuildRevision httpPort n pprof))
      as [Hnl Hns].
    unfold captured in He. apply elem_of_app in He as [He|He];
      apply list_elem_of_omap in He as (x & Hx & Hres).
    + apply list_elem_of_lookup_1 in Hx as [i Hi].
      assert (listener_back s i (Some e)) as Hb.
      { exists x. split; [done|]. split; [|done]. by destruct x. }
      destruct (run_listener_origin _ _ _ _ _ Hrun Hb)
        as [Hb0|(o & srv & Hin & Hsrv & Hr)]; [by destruct (Hnl i (Some e))|].
      destruct (main_servers_not_nil _ _ _ _ _ _ Hsrv) as [server ->].
      by destruct (Hl i o Hin) as [-> | ->].
    + apply list_elem_of_lookup_1 in Hx as [j Hj].
      assert (shutdown_back s j (Some e)) as Hb.
      { exists x. split; [done|]. split; [|done].
        unfold shutdown_result in Hres. by destruct (sstatus x). }
      destruct (run_shutdown_origin _ _ _ _ _ Hrun Hb) as [Hb0|Hin];
        [by destruct (Hns j (Some e))|].
      by specialize (Hs j (Some e) Hin).
Qed.

(** X9. [main] ends only after a signal: a run to the end of the process
    has the signal in it, a return of [ListenAndServe] for each of the
    two services and a return of [Shutdown] for each of the two
    requests. Whatever the services do, without a signal the process
    does not end. *)
Theorem main_ends_only_after_signal (evs : list Event) (s : State)
    (code : Z) :
  run main0 evs = Some s → mainpc s = MExited code →
  Signal ∈ evs
  ∧ (∀ i, (i < 2)%nat → ∃ outcome, ListenReturns i outcome ∈ evs)
  ∧ (∀ j, (j < 2)%nat → ∃ outcome, ShutdownReturns j outcome ∈ evs).
Proof.
  intros Hrun Hexit.
  destruct (main_run_reachable _ _ Hrun) as [HI Hlen].
  destruct (run_frame _ _ _ Hrun) as [Hsrv _]. simpl in Hsrv.
  destruct (resolved_catcher s HI) as (_ & Hl & Hg & Hs);
    [by rewrite Hexit..|].
  destruct (start_nothing_back main_ctx
              (main_servers BuildRevision httpPort n pprof)) as [Hnl Hns].
  split; [|split].
  - eapply run_signal; [done..|]. by rewrite Hg.
  - intros i Hi. rewrite Hsrv in Hlen. simpl in Hlen.
    destruct (lookup_lt_is_Some_2 (listeners s) i) as [st Hst]; [lia|].
    destruct (Hl st (list_elem_of_lookup_2 _ _ _ Hst)) as [r ->].
    assert (listener_back s i r) as Hb by (by exists (LDone r)).
    destruct (run_listener_origin _ _ _ _ _ Hrun Hb)
      as [Hb0|(o & srv & Hin & _)]; [by destruct (Hnl i r)|].
    by exists o.
  - intros j Hj.
    assert (length (shutdowns s) = 2%nat) as Hlen2.
    { rewrite <- (length_fmap target), (inv_targets s HI), Hsrv; [done|].
      by rewrite Hg. }
    destruct (lookup_lt_is_Some_2 (shutdowns s) j) as [t Ht]; [lia|].
    destruct (Hs t (list_elem_of_lookup_2 _ _ _ Ht)) as [r Hr].
    assert (shutdown_back s j r) as Hb.
    { exists t. split; [done|]. unfold shutdown_result. by rewrite Hr. }
    destruct (run_shutdown_origin _ _ _ _ _ Hrun Hb) as [Hb0|Hin];
      [by destruct (Hns j r)|].
    by exists r.
Qed.

End MainRuns.

(** * Further properties: the helpers of the cleanup tests *)

Section Helpers.
Import logkeeper.

Lemma clearCollections_cons c cs d :
  clearCollections (c :: cs) d = clearCollections cs (clearCollection c d).
Proof. done. Qed.

Lemma if_in_cons {A} (x c : Collection) (cs : list Collection) (a b : A) :
  (if decide (x ∈ c :: cs) then a else b)
  = (if decide (x = c) then a else if decide (x ∈ cs) then a else b).
Proof.
  destruct (decide (x ∈ c :: cs)) as [Hin|Hnin],
           (decide (x = c)) as [Heq|Hne]; try done.
  - destruct (decide (x ∈ cs)) as [?|Hn]; [done|].
    apply elem_of_cons in Hin as [?|?]; done.
  - destruct Hnin. subst. by left.
  - destruct (decide (x ∈ cs)) as [?|Hn]; [|done].
    destruct Hnin. by right.
Qed.

Lemma clearCollections_fields cs : ∀ d,
  builds (clearCollections cs d)
  = (if decide (buildsCollection ∈ cs) then [] else builds d)
  ∧ tests (clearCollections cs d)
    = (if decide (testsCollection ∈ cs) then [] else tests d)
  ∧ logs (clearCollections cs d)
    = (if decide (logsCollection ∈ cs) then [] else logs d).
Proof.
  induction cs as [|c cs IH]; intros d.
  - by rewrite !decide_False by (by intros ?%elem_of_nil).
  - rewrite clearCollections_cons, !if_in_cons.
    destruct (IH (clearCollection c d)) as (-> & -> & ->).
    destruct c; simpl; repeat split; try done;
      match goal with |- context [decide ?P] => by destruct (decide P) end.
Qed.

Lemma DB_eq (d1 d2 : DB) :
  builds d1 = builds d2 → tests d1 = tests d2 → logs d1 = logs d2 → d1 = d2.
Proof. destruct d1, d2; simpl; by intros -> -> ->. Qed.

(** X10. [clearCollections] empties the collections it is given and leaves
    the others as they are, whatever the order of the names and however
    often one is named; so clearing twice is clearing once, and two
    clearings can be swapped. *)
Theorem clearCollections_clears_named (cs : list Collection) (d : DB) :
  builds (clearCollections cs d)
  = (if decide (buildsCollection ∈ cs) then [] else builds d)
  ∧ tests (clearCollections cs d)
    = (if decide (testsCollection ∈ cs) then [] else tests d)
  ∧ logs (clearCollections cs d)
    = (if decide (logsCollection ∈ cs) then [] else logs d)
  ∧ clearCollections cs (clearCollections cs d) = clearCollections cs d
  ∧ (∀ cs', clearCollections cs (clearCollections cs' d)
            = clearCollections cs' (clearCollections cs d))
  ∧ (∀ cs', cs ≡ₚ cs' → clearCollections cs' d = clearCollections cs d).
Proof.
  destruct (clearCollections_fields cs d) as (Hb & Ht & Hl).
  split; [done|]. split; [done|]. split; [done|]. split; [|split].
  - destruct (clearCollections_fields cs (clearCollections cs d))
      as (Hb2 & Ht2 & Hl2).
    apply DB_eq.
    + rewrite Hb2, Hb. by destruct (decide (buildsCollection ∈ cs)).
    + rewrite Ht2, Ht. by destruct (decide (testsCollection ∈ cs)).
    + rewrite Hl2, Hl. by destruct (decide (logsCollection ∈ cs)).
  - intros cs'.
    destruct (clearCollections_fields cs' d) as (Hb' & Ht' & Hl').
    destruct (clearCollections_fields cs (clearCollections cs' d))
      as (Hb2 & Ht2 & Hl2).
    destruct (clearCollections_fields cs' (clearCollections cs d))
      as (Hb3 & Ht3 & Hl3).
    apply DB_eq.
    + rewrite Hb2, Hb3, Hb, Hb'.
      by destruct (decide (buildsCollection ∈ cs)), (decide (buildsCollection ∈ cs')).
    + rewrite Ht2, Ht3, Ht, Ht'.
      by destruct (decide (testsCollection ∈ cs)), (decide (testsCollection ∈ cs')).
    + rewrite Hl2, Hl3, Hl, Hl'.
      by destruct (decide (logsCollection ∈ cs)), (decide (logsCollection ∈ cs')).
  - intros cs' Hperm.
    destruct (clearCollections_fields cs' d) as (Hb' & Ht' & Hl').
    assert (∀ c, (c ∈ cs) ↔ (c ∈ cs')) as Hsame
      by (intros c; by rewrite Hperm).
    apply DB_eq.
    + rewrite Hb, Hb'.
      destruct (decide (buildsCollection ∈ cs)) as [H1|H1],
               (decide (buildsCollection ∈ cs')) as [H2|H2];
        try done; by apply Hsame in H1 || apply Hsame in H2.
    + rewrite Ht, Ht'.
      destruct (decide (testsCollection ∈ cs)) as [H1|H1],
               (decide (testsCollection ∈ cs')) as [H2|H2];
        try done; by apply Hsame in H1 || apply Hsame in H2.
    + rewrite Hl, Hl'.
      destruct (decide (logsCollection ∈ cs)) as [H1|H1],
               (decide (logsCollection ∈ cs')) as [H2|H2];
        try done; by apply Hsame in H1 || apply Hsame in H2.
Qed.

End Helpers.

Section Fixtures.
Import logkeeper.
Variable cutoff : time.Duration.
Variable out : Outage.
Variable Local : time.Location.
Variable fresh : nat → ObjectID.

(** X11. [insertTests] panics exactly when it is given fewer than four
    identifiers and [insertLogs] exactly when given fewer than two:
    they index the list without looking at its length. When they do not
    panic they touch their own collection only, adding four documents
    to it, or none when the insert fails, which they report and
    survive. *)
Theorem insert_helpers_panic_on_short_ids (ids : list string) (d : DB) :
  (insertTests out fresh ids d = None ↔ (length ids < 4)%nat)
  ∧ (insertLogs out fresh ids d = None ↔ (length ids < 2)%nat)
  ∧ (∀ d' ok, insertTests out fresh ids d = Some (d', ok) →
       builds d' = builds d ∧ logs d' = logs d
       ∧ ok = negb (out testsCollection)
       ∧ length (tests d')
         = (length (tests d) + if out testsCollection then 0 else 4)%nat)
  ∧ (∀ d' ok, insertLogs out fresh ids d = Some (d', ok) →
       builds d' = builds d ∧ tests d' = tests d
       ∧ ok = negb (out logsCollection)
       ∧ length (logs d')
         = (length (logs d) + if out logsCollection then 0 else 4)%nat).
Proof.
  unfold insertTests, insertLogs, InsertMany.
  destruct ids as [|a [|b [|c [|e ids]]]]; simpl;
    destruct (out testsCollection), (out logsCollection); simpl;
    repeat split; try done; try lia;
    try (by intros [=]); try (intros ?; lia);
    simplify_eq; simpl; rewrite ?length_app; simpl; try done; lia.
Qed.


End Fixtures.

(** ** The further properties on concrete runs *)

Section ConcreteExtras.
Import context http main program progress sample.

Lemma dialInfo_hosts_witness :
  Addrs (dialInfo replica_flags) = ["db1:27017"; "db2:27017"]
  ∧ ReplicaSetName (dialInfo replica_flags) = "rs0"
  ∧ strings.Join (Addrs (dialInfo replica_flags)) strings.comma
    = "db1:27017,db2:27017".
Proof.
  destruct (dialInfo_hosts replica_flags) as (Hjoin & _ & _ & Hsplit & Hrs).
  split; [|split; [exact Hrs|exact Hjoin]].
  apply Hsplit; [discriminate| |reflexivity].
  intros a Ha. apply elem_of_cons in Ha as [->|Ha]; [reflexivity|].
  apply elem_of_cons in Ha as [->|Ha]; [reflexivity|].
  by apply elem_of_nil in Ha.
Defined.

Lemma startup_stops_at_first_failure_witness :
  ∃ p,
    startup 4 100 10 time.Minute dial_fails default_flags fresh_process
    = (p, Exited 1)
    ∧ last (calls p) = Some (DialWithInfo (dialInfo default_flags))
    ∧ calls p `prefix_of` startup_calls 4 100 10 time.Minute default_flags.
Proof.
  destruct (startup_stops_at_first_failure 4 100 10 time.Minute dial_fails
              default_flags)
    as (p & o & Hrun & Hpre & Hfail & _).
  assert (DialWithInfo (dialInfo default_flags) ∈ calls p) as Hin.
  { vm_compute in Hrun. injection Hrun as <- _. vm_compute.
    do 2 right. by left. }
  destruct (Hfail _ Hin eq_refl) as [-> Hlast]; [discriminate|].
  by exists p.
Defined.


Lemma wait_groups_release_when_all_done_witness :
  ∃ s,
    run main_8080 first_service_added = Some s
    ∧ is_Some (step s (ListenerDone 0))
    ∧ ¬ is_Some (step s MainServicesWaited).
Proof.
  eexists. split; [vm_compute; reflexivity|].
  match goal with
  | |- is_Some (step ?s _) ∧ _ =>
      destruct (wait_groups_release_when_all_done "dev" 8080 negroni pprof
                  first_service_added s)
        as (Hdone & _ & Hwait & _);
        [vm_compute; reflexivity|reflexivity|]
  end.
  split.
  - eapply (Hdone 0%nat). reflexivity.
  - intros Hs. apply Hwait in Hs as [_ Hall].
    destruct (Hall LRunning) as [r Hr]; [|discriminate Hr].
    right. by left.
Defined.

Lemma main_never_deadlocks_witness :
  ∃ s, run main_8080 [Signal] = Some s
       ∧ (∃ e s', step s e = Some s')
       ∧ ∃ evs' s' code, run s evs' = Some s' ∧ mainpc s' = MExited code.
Proof.
  eexists. split; [vm_compute; reflexivity|].
  match goal with
  | |- (∃ e s', step ?s e = _) ∧ _ =>
      destruct (main_never_deadlocks "dev" 8080 negroni pprof [Signal] s)
        as (Hmove & Hend); [vm_compute; reflexivity|]
  end.
  split; [by apply Hmove|exact Hend].
Defined.

Lemma main_ends_after_seventeen_moves_witness :
  ∃ s, run main_8080 clean_schedule = Some s
       ∧ length clean_schedule = 17%nat
       ∧ ∃ code, mainpc s = MExited code.
Proof.
  eexists. split; [vm_compute; reflexivity|]. split; [reflexivity|].
  match goal with
  | |- ∃ code, mainpc ?s = _ =>
      destruct (main_ends_after_seventeen_moves "dev" 8080 negroni pprof
                  clean_schedule s) as (_ & _ & Hend);
        [vm_compute; reflexivity|]
  end.
  by apply Hend.
Defined.

Lemma resolve_has_no_race_witness :
  ∃ s, run main_8080 clean_until_resolve = Some s
       ∧ mainpc s = MResolve
       ∧ step s (ListenerAdds 0) = None
       ∧ ∀ e s', step s e = Some s' → e = MainResolves.
Proof.
  eexists. split; [vm_compute; reflexivity|]. split; [reflexivity|].
  split; [reflexivity|].
  match goal with
  | |- ∀ e s', step ?s e = _ → _ =>
      destruct (resolve_has_no_race "dev" 8080 negroni pprof
                  clean_until_resolve s) as (_ & _ & Honly);
        [vm_compute; reflexivity|reflexivity|]
  end.
  intros e s' Hstep. by destruct (Honly e s' Hstep).
Defined.

Lemma main_exit_status_by_outcomes_witness :
  (∃ s, run main_8080 clean_schedule = Some s ∧ mainpc s = MExited 0
        ∧ ∀ j outcome,
            ShutdownReturns j outcome ∈ clean_schedule → outcome = None)
  ∧ ∃ s, run main_8080 failing_schedule = Some s ∧ mainpc s = MExited 1
         ∧ ¬ ((∀ i outcome, ListenReturns i outcome ∈ failing_schedule →
                 closed_normally outcome)
              ∧ (∀ j outcome, ShutdownReturns j outcome ∈ failing_schedule →
                   outcome = None)).
Proof.
  split.
  - eexists. split; [vm_compute; reflexivity|].
    match goal with
    | |- mainpc ?s = _ ∧ _ =>
        destruct (main_exit_status_by_outcomes "dev" 8080 negroni pprof
                    clean_schedule s 0) as (_ & Hzero);
          [vm_compute; reflexivity|reflexivity|]
    end.
    split; [reflexivity|]. by destruct (proj1 Hzero eq_refl).
  - eexists. split; [vm_compute; reflexivity|].
    match goal with
    | |- mainpc ?s = _ ∧ _ =>
        destruct (main_exit_status_by_outcomes "dev" 8080 negroni pprof
                    failing_schedule s 1) as (_ & Hzero);
          [vm_compute; reflexivity|reflexivity|]
    end.
    split; [reflexivity|]. intros Hall.
    apply Hzero in Hall. discriminate Hall.
Defined.

Lemma main_ends_only_after_signal_witness :
  ∃ s, run main_8080 failing_schedule = Some s ∧ mainpc s = MExited 1
       ∧ Signal ∈ failing_schedule
       ∧ ∃ outcome, ListenReturns 1 outcome ∈ failing_schedule.
Proof.
  eexists. split; [vm_compute; reflexivity|].
  match goal with
  | |- mainpc ?s = _ ∧ _ =>
      destruct (main_ends_only_after_signal "dev" 8080 negroni pprof
                  failing_schedule s 1) as (Hsignal & Hlisten & _);
        [vm_compute; reflexivity|reflexivity|]
  end.
  split; [reflexivity|]. split; [exact Hsignal|]. apply Hlisten. lia.
Defined.

End ConcreteExtras.
